(** * Pairing resolver and samplesheet writer of [scripts/generate_samplesheet.py]

    A shallow embedding of [parse_fastq_pairs] and [write_samplesheet], then
    of [find_fastq_files] and [main] of the same script and of
    [generate_fastq_read], [generate_sample] and [create_samplesheet] of
    [scripts/generate_synthetic_fastq.py].

    - Paths, basenames and sample names are [string]s (sequences of 8-bit
      characters; the byte order of UTF-8 is the code-point order Python
      compares [str] by).
    - [samples], a [defaultdict(dict)] of dicts from ['R1'] / ['R2'] to a
      path, is a [gmap string (gmap string string)].
    - [remaining_files] and [matched_files] are [gset string]; the order in
      which Python iterates a set is not defined by the language, so every
      function that iterates one takes a [SetOrder].
    - The regular expressions are the eight fixed patterns of
      [paired_patterns] and the extension pattern of [re.sub]; they are run
      by a small backtracking matcher.
    - The directory tree is what [os.walk] yields, the user's [--pattern] a
      predicate on file names, the random generator a stream of draws; files
      are the texts written to them, in order, and the standard output the
      lines printed. *)

From Stdlib Require Import Ascii String.
From stdpp Require Import gmap strings list fin_maps sorting pretty.

(** ** Strings *)

(** The line feed: the one character [.] refuses, and the one [$] tolerates
    after the match. *)
Definition newline : ascii := "010"%char.

Definition slash : ascii := "/"%char.

(** [strip_prefix p s] is [Some r] when [s = p ++ r]. *)
Fixpoint strip_prefix (p s : string) : option string :=
  match p, s with
  | EmptyString, _ => Some s
  | String a p', String b s' =>
      if Ascii.eqb a b then strip_prefix p' s' else None
  | String _ _, EmptyString => None
  end.

(** [os.path.basename] of [posixpath]: [p[p.rfind('/') + 1:]].  [cur] is the
    text after the last slash seen so far. *)
Fixpoint after_last_slash (cur p : string) : string :=
  match p with
  | EmptyString => cur
  | String c p' =>
      if Ascii.eqb c slash then after_last_slash p' p'
      else after_last_slash cur p'
  end.

Definition basename (p : string) : string := after_last_slash p p.

(** ** Regular expressions

    Every pattern of the script is [(.+)] followed by literals and optional
    literal groups and closed by [$], or (for [re.sub]) the same without the
    leading group. *)
Inductive regex_item :=
  | Lit (s : string)      (* the characters of [s], [\.] being a plain dot *)
  | Opt (s : string).     (* [(s)?], greedy *)

(** [$] without [re.MULTILINE]: the end of the string, or just before a line
    feed that ends the string. *)
Definition at_dollar (s : string) : bool :=
  match s with
  | EmptyString => true
  | String c EmptyString => Ascii.eqb c newline
  | _ => false
  end.

(** Backtracking match of [items $] at the start of [s]; the result is what
    is left of [s] after the match (the empty string or a final line feed).
    An optional group is tried present first, then absent. *)
Fixpoint match_items (items : list regex_item) (s : string) : option string :=
  match items with
  | [] => if at_dollar s then Some s else None
  | Lit l :: k =>
      match strip_prefix l s with
      | Some s' => match_items k s'
      | None => None
      end
  | Opt l :: k =>
      match strip_prefix l s with
      | Some s' =>
          match match_items k s' with
          | Some r => Some r
          | None => match_items k s
          end
      | None => match_items k s
      end
  end.

(** [re.match('(.+)' items '$', s).group(1)], or [None] when there is no
    match.  [.+] is greedy: it takes as many characters other than a line
    feed as it can and gives them back one at a time until the rest of the
    pattern matches. *)
Fixpoint re_match_group1 (items : list regex_item) (s : string) : option string :=
  match s with
  | EmptyString => None
  | String c s' =>
      if Ascii.eqb c newline then None
      else match re_match_group1 items s' with
           | Some g => Some (String c g)
           | None =>
               match match_items items s' with
               | Some _ => Some (String c EmptyString)
               | None => None
               end
           end
  end.

(** [\.f(ast)?q(\.gz)?$] *)
Definition fastq_ext : list regex_item :=
  [Lit ".f"; Opt "ast"; Lit "q"; Opt ".gz"].

(** [re.sub(r'\.f(ast)?q(\.gz)?$', '', s)]: scan from the left, drop the
    first match.  A match ends at [$], so what follows it is empty or a final
    line feed, where the pattern cannot match again: the scan stops there. *)
Fixpoint re_sub_fastq_ext (s : string) : string :=
  match s with
  | EmptyString => EmptyString
  | String c s' =>
      match match_items fastq_ext s with
      | Some r => r
      | None => String c (re_sub_fastq_ext s')
      end
  end.

(** A convention rule: the mate-1 and the mate-2 pattern, each without its
    leading [(.+)] and closing [$]. *)
Definition rule : Type := list regex_item * list regex_item.

(** [(.+)_R1(_001)?\.f(ast)?q(\.gz)?$] and the same with [_R2] *)
Definition rule_R1_R2 : rule :=
  (Lit "_R1" :: Opt "_001" :: fastq_ext, Lit "_R2" :: Opt "_001" :: fastq_ext).

(** [(.+)_1\.f(ast)?q(\.gz)?$] and the same with [_2] *)
Definition rule_1_2 : rule := (Lit "_1" :: fastq_ext, Lit "_2" :: fastq_ext).

(** [(.+)\.R1\.f(ast)?q(\.gz)?$] and the same with [.R2] *)
Definition rule_dot_R1_R2 : rule := (Lit ".R1" :: fastq_ext, Lit ".R2" :: fastq_ext).

(** [(.+)\.1\.f(ast)?q(\.gz)?$] and the same with [.2] *)
Definition rule_dot_1_2 : rule := (Lit ".1" :: fastq_ext, Lit ".2" :: fastq_ext).

Definition paired_patterns : list rule :=
  [rule_R1_R2; rule_1_2; rule_dot_R1_R2; rule_dot_1_2].


(** ** The sample table

    [samples = defaultdict(dict)]: sample name to reads, the reads being a
    dict from ['R1'] / ['R2'] to a path. *)

(** [samples[name][key] = file]; reading [samples[name]] creates the empty
    dict when the name is new. *)
Definition setitem (name key file : string)
    (samples : gmap string (gmap string string)) : gmap string (gmap string string) :=
  <[name := <[key := file]> (default ∅ (samples !! name))]> samples.

(** The path stored under [samples[name][key]], if any. *)
Definition slot (samples : gmap string (gmap string string))
    (name key : string) : option string :=
  samples !! name ≫= (.!! key).

(** ** Iterating a set

    An iteration order lists every member of a set once.  Nothing else is
    known of it: it changes with the interpreter's hash seed. *)
Record SetOrder := {
  set_iter : gset string → list string;
  set_iter_perm : ∀ X, set_iter X ≡ₚ elements X
}.

(** The order of [elements], and its reverse. *)
Definition elements_order : SetOrder :=
  {| set_iter := elements; set_iter_perm := λ X, reflexivity (elements X) |}.

Definition reverse_order : SetOrder :=
  {| set_iter := λ X, reverse (elements X);
     set_iter_perm := λ X, reverse_Permutation (elements X) |}.

(** ** [parse_fastq_pairs] *)

(** The inner loop: the first [file2] of the iteration whose basename matches
    the mate-2 pattern with the stem [sample_name]. *)
Definition find_mate2 (r2_pattern : list regex_item) (sample_name : string)
    (order : list string) : option string :=
  find (λ file2,
          bool_decide (re_match_group1 r2_pattern (basename file2) = Some sample_name))
       order.

(** The body of [for file1 in remaining_files], on the pair
    [(samples, matched_files)]. *)
Definition pair_step (r : rule) (order : list string)
    (acc : gmap string (gmap string string) * gset string) (file1 : string)
    : gmap string (gmap string string) * gset string :=
  match re_match_group1 r.1 (basename file1) with
  | Some sample_name =>
      match find_mate2 r.2 sample_name order with
      | Some file2 =>
          (setitem sample_name "R2" file2 (setitem sample_name "R1" file1 acc.1),
           {[file2]} ∪ ({[file1]} ∪ acc.2))
      | None => acc
      end
  | None => acc
  end.

(** The body of [for r1_pattern, r2_pattern in paired_patterns], on the pair
    [(samples, remaining_files)]: both loops walk the same unchanged set, and
    [remaining_files -= matched_files] closes the pass. *)
Definition rule_pass (o : SetOrder)
    (st : gmap string (gmap string string) * gset string) (r : rule)
    : gmap string (gmap string string) * gset string :=
  let order := set_iter o st.2 in
  let res := foldl (pair_step r order) (st.1, ∅) order in
  (res.1, st.2 ∖ res.2).

(** The table and the working set after the rules [rules]. *)
Definition run_rules (o : SetOrder) (rules : list rule) (fastq_files : list string)
    : gmap string (gmap string string) * gset string :=
  foldl (rule_pass o) (∅, list_to_set fastq_files) rules.

(** The body of [for file in remaining_files]. *)
Definition single_step (samples : gmap string (gmap string string)) (file : string)
    : gmap string (gmap string string) :=
  setitem (re_sub_fastq_ext (basename file)) "R1" file samples.

Definition parse_fastq_pairs (o : SetOrder) (fastq_files : list string)
    : gmap string (gmap string string) :=
  let st := run_rules o paired_patterns fastq_files in
  foldl single_step st.1 (set_iter o st.2).

(** ** [write_samplesheet] *)

(** [str.startswith]. *)
Definition starts_with (p s : string) : bool :=
  match strip_prefix p s with Some _ => true | None => false end.

(** [s.replace('', new)]: [new] before every character and at the end. *)
Fixpoint replace_empty (new s : string) : string :=
  match s with
  | EmptyString => new
  | String c s' => new +:+ String c (replace_empty new s')
  end.

(** [s.replace(old, new)] for a non-empty [old]: the occurrences of [old] are
    taken from the left and do not overlap; [skip] counts the characters of
    the occurrence just replaced that are still to be passed over. *)
Fixpoint replace_go (old new : string) (skip : nat) (s : string) : string :=
  match s with
  | EmptyString => EmptyString
  | String c s' =>
      match skip with
      | S n => replace_go old new n s'
      | O =>
          if starts_with old s
          then new +:+ replace_go old new (String.length old - 1) s'
          else String c (replace_go old new 0 s')
      end
  end.

Definition str_replace (old new s : string) : string :=
  match old with
  | EmptyString => replace_empty new s
  | _ => replace_go old new 0 s
  end.

(** [s3_prefix = {'local': ..., 's3': ...}] *)
Record S3Prefix := { local : string; s3 : string }.

Definition header : string :=
  "sample,fastq_1,fastq_2,strandedness" +:+ String newline EmptyString.

(** The order of [sorted(samples.items())]: the names are the keys of a dict,
    so no two items tie on the name and the reads are never compared. *)
Definition item_le (a b : string * gmap string string) : Prop := String.le a.1 b.1.

Global Instance item_le_dec : RelDecision item_le.
Proof. intros a b. unfold item_le. apply _. Defined.

(** The fields [r1] and [r2] of a row. *)
Definition row_fields (s3_prefix : option S3Prefix) (reads : gmap string string)
    : string * string :=
  let r1 := default "" (reads !! "R1") in
  let r2 := default "" (reads !! "R2") in
  match s3_prefix with
  | Some p =>
      (str_replace (local p) (s3 p) r1,
       if bool_decide (r2 = "") then r2 else str_replace (local p) (s3 p) r2)
  | None => (r1, r2)
  end.

(** [f'{sample_name},{r1},{r2},{strandedness}\n'] *)
Definition row (strandedness : string) (s3_prefix : option S3Prefix)
    (item : string * gmap string string) : string :=
  let f := row_fields s3_prefix item.2 in
  item.1 +:+ "," +:+ f.1 +:+ "," +:+ f.2 +:+ "," +:+ strandedness
    +:+ String newline EmptyString.

Definition sorted_items (samples : gmap string (gmap string string))
    : list (string * gmap string string) :=
  merge_sort item_le (map_to_list samples).

(** The lines written to [output_file], in order. *)
Definition write_samplesheet (samples : gmap string (gmap string string))
    (strandedness : string) (s3_prefix : option S3Prefix) : list string :=
  header :: map (row strandedness s3_prefix) (sorted_items samples).

(** ** [parse_fastq_pairs] with the operations that can raise

    [re.match] returns [None] when the pattern does not match, and
    [None.group(1)] raises [AttributeError]; nothing else in the function is
    partial ([samples] is a [defaultdict], the sets are not changed while
    they are iterated).  [Checked] is the same function with that call made
    explicit, in a result monad. *)
Inductive exn := AttributeError.

Inductive result (A : Type) :=
  | Ok (a : A)
  | Raise (e : exn).

Global Arguments Ok {A} a.
Global Arguments Raise {A} e.

Global Instance result_ret : MRet result := λ A a, Ok a.

Global Instance result_bind : MBind result := λ A B f x,
  match x with
  | Ok a => f a
  | Raise e => Raise e
  end.

Module Checked.

(** [m.group(1)] *)
Definition group1 (m : option string) : result string :=
  match m with
  | Some g => Ok g
  | None => Raise AttributeError
  end.

(** [match2 and match2.group(1) == sample_name], [match2] being
    [re.match(r2_pattern, basename2)] *)
Definition is_mate2 (r2_pattern : list regex_item) (sample_name file2 : string)
    : result bool :=
  let match2 := re_match_group1 r2_pattern (basename file2) in
  if bool_decide (is_Some match2)
  then (g ← group1 match2; mret (bool_decide (g = sample_name)))
  else mret false.

(** [for file2 in remaining_files: ... break] *)
Fixpoint find_mate2 (r2_pattern : list regex_item) (sample_name : string)
    (order : list string) : result (option string) :=
  match order with
  | [] => mret None
  | file2 :: rest =>
      hit ← is_mate2 r2_pattern sample_name file2;
      if hit : bool then mret (Some file2)
      else find_mate2 r2_pattern sample_name rest
  end.

Definition pair_step (r : rule) (order : list string)
    (acc : gmap string (gmap string string) * gset string) (file1 : string)
    : result (gmap string (gmap string string) * gset string) :=
  let match1 := re_match_group1 r.1 (basename file1) in
  if bool_decide (is_Some match1)
  then
    (sample_name ← group1 match1;
     found ← find_mate2 r.2 sample_name order;
     match found with
     | Some file2 =>
         mret (setitem sample_name "R2" file2 (setitem sample_name "R1" file1 acc.1),
               {[file2]} ∪ ({[file1]} ∪ acc.2))
     | None => mret acc
     end)
  else mret acc.

(** A [for] loop whose body can raise. *)
Fixpoint for_each {A B} (body : A → B → result A) (a : A) (l : list B) : result A :=
  match l with
  | [] => mret a
  | x :: l' => a' ← body a x; for_each body a' l'
  end.

Definition rule_pass (o : SetOrder)
    (st : gmap string (gmap string string) * gset string) (r : rule)
    : result (gmap string (gmap string string) * gset string) :=
  let order := set_iter o st.2 in
  res ← for_each (pair_step r order) (st.1, ∅) order;
  mret (res.1, st.2 ∖ res.2).

Definition parse_fastq_pairs (o : SetOrder) (fastq_files : list string)
    : result (gmap string (gmap string string)) :=
  st ← for_each (rule_pass o) (∅, list_to_set fastq_files) paired_patterns;
  mret (foldl single_step st.1 (set_iter o st.2)).

End Checked.


(** ** Notions used by the statements *)

(** [is_suffix t s]: [s] ends with [t]. *)
Fixpoint is_suffix (t s : string) : bool :=
  String.eqb t s
  || match s with
     | EmptyString => false
     | String _ s' => is_suffix t s'
     end.

(** The strings [items $] accepts, a final line feed included. *)
Fixpoint expansions (items : list regex_item) : list string :=
  match items with
  | [] => [EmptyString; String newline EmptyString]
  | Lit l :: k => String.append l <$> expansions k
  | Opt l :: k => (String.append l <$> expansions k) ++ expansions k
  end.

(** No string accepted by [p $] ends with one accepted by [q $], nor the
    other way round: no basename matches both patterns. *)
Definition tails_apart (p q : list regex_item) : bool :=
  forallb (λ t, forallb (λ t', negb (is_suffix t t' || is_suffix t' t))
                        (expansions q))
          (expansions p).

Definition rule_apart (r r' : rule) : bool :=
  tails_apart r.1 r'.1 && tails_apart r.1 r'.2
  && tails_apart r.2 r'.1 && tails_apart r.2 r'.2.

(** The mate-1 and mate-2 patterns of a rule are apart, and so are the
    patterns of any two rules. *)
Fixpoint rules_exclusive (rules : list rule) : bool :=
  match rules with
  | [] => true
  | r :: rest =>
      tails_apart r.1 r.2 && forallb (rule_apart r) rest && rules_exclusive rest
  end.

(** The bindings [(sample_name, file1, file2)] a pass performs while its outer
    loop walks [l] and its inner loop walks [order], in the order performed. *)
Definition pass_bindings (r : rule) (order l : list string)
    : list (string * string * string) :=
  omap (λ file1,
          sample_name ← re_match_group1 r.1 (basename file1);
          file2 ← find_mate2 r.2 sample_name order;
          Some (sample_name, file1, file2)) l.

(** The files of a list of bindings: what a pass adds to [matched_files]. *)
Definition bound_files (bs : list (string * string * string)) : gset string :=
  list_to_set (bs ≫= λ b, [b.1.2; b.2]).

(** An assignment [samples[name][key] = file] as data: [(name, key, file)]. *)
Definition apply_write (samples : gmap string (gmap string string))
    (w : string * string * string) : gmap string (gmap string string) :=
  setitem w.1.1 w.1.2 w.2 samples.

Definition binding_writes (bs : list (string * string * string))
    : list (string * string * string) :=
  bs ≫= λ b, [(b.1.1, "R1", b.1.2); (b.1.1, "R2", b.2)].

Definition single_write (file : string) : string * string * string :=
  (re_sub_fastq_ext (basename file), "R1", file).

(** Every assignment to [samples] made from the working set [remaining] on:
    the passes of [rules], then the single-end loop. *)
Fixpoint rules_writes (o : SetOrder) (rules : list rule) (remaining : gset string)
    : list (string * string * string) :=
  match rules with
  | [] => single_write <$> set_iter o remaining
  | r :: rules' =>
      let bs := pass_bindings r (set_iter o remaining) (set_iter o remaining) in
      binding_writes bs ++ rules_writes o rules' (remaining ∖ bound_files bs)
  end.

Definition parse_writes (o : SetOrder) (fastq_files : list string)
    : list (string * string * string) :=
  rules_writes o paired_patterns (list_to_set fastq_files).

(** No path sits in two slots of the table. *)
Definition slots_injective (samples : gmap string (gmap string string)) : Prop :=
  ∀ n k n' k' f,
    slot samples n k = Some f → slot samples n' k' = Some f → n = n' ∧ k = k'.

(** No path is assigned to two different slots. *)
Definition writes_functional (ws : list (string * string * string)) : Prop :=
  ∀ n k n' k' f, (n, k, f) ∈ ws → (n', k', f) ∈ ws → n = n' ∧ k = k'.

(** The paths held by the table: every [mate1] and every present [mate2]. *)
Definition slot_values (samples : gmap string (gmap string string)) : list string :=
  map_to_list samples ≫= λ item, (map_to_list item.2).*2.

(** No slot is assigned two different paths. *)
Definition no_overwrite (ws : list (string * string * string)) : bool :=
  forallb (λ w, forallb (λ w', bool_decide (w.1 = w'.1 → w.2 = w'.2)) ws) ws.

(** Every record of the table has its ['R1'] key. *)
Definition has_mate1 (samples : gmap string (gmap string string)) : Prop :=
  ∀ n reads, samples !! n = Some reads → is_Some (reads !! "R1").

(** One binding: the two assignments of the inner loop. *)
Definition bind (samples : gmap string (gmap string string))
    (b : string * string * string) : gmap string (gmap string string) :=
  setitem b.1.1 "R2" b.2 (setitem b.1.1 "R1" b.1.2 samples).

(** [g] gives different results on different files of [fs], where it gives
    one. *)
Definition injective_on (g : string → option string) (fs : list string) : bool :=
  forallb (λ f, forallb (λ f', bool_decide (g f = g f' → g f = None ∨ f = f')) fs) fs.

(** No two input files have the same stem under the same pattern, and no two
    have the same basename less the extension: no two files compete for a
    slot. *)
Definition unambiguous (rules : list rule) (fs : list string) : bool :=
  forallb (λ r : rule,
             injective_on (λ f, re_match_group1 r.1 (basename f)) fs
             && injective_on (λ f, re_match_group1 r.2 (basename f)) fs) rules
  && injective_on (λ f, Some (re_sub_fastq_ext (basename f))) fs.

(** The extensions [find_fastq_files] accepts, which are those the pattern
    of [re.sub] strips. *)
Definition fastq_extensions : list string := [".fastq.gz"; ".fq.gz"; ".fastq"; ".fq"].

(** The basename of [f] matches the mate-1 or the mate-2 pattern of [r]. *)
Definition matches_rule (r : rule) (f : string) : Prop :=
  is_Some (re_match_group1 r.1 (basename f))
  ∨ is_Some (re_match_group1 r.2 (basename f)).

(** The strict order of the rows: by sample name. *)
Definition item_lt (a b : string * gmap string string) : Prop :=
  String.le a.1 b.1 ∧ a.1 ≠ b.1.

(** [s.find(old)]: where [old] first occurs in [s], if it does. *)
Fixpoint first_occurrence (old s : string) : option nat :=
  if starts_with old s then Some 0
  else match s with
       | EmptyString => None
       | String _ s' => S <$> first_occurrence old s'
       end.

(** ** [find_fastq_files] *)

(** [s.endswith(t)] *)
Definition endswith (s t : string) : bool := is_suffix t s.

(** [os.path.join(a, b)] of [posixpath]: an absolute [b] stands alone, and a
    slash is put between the two unless [a] is empty or ends with one. *)
Definition path_join (a b : string) : string :=
  if starts_with "/" b then b
  else if bool_decide (a = "") || endswith a "/" then a +:+ b
  else a +:+ "/" +:+ b.

(** What [os.walk] yields for a directory: [(root, dirs, files)]. *)
Definition walk_entry : Type := string * list string * list string.

(** [any(file.endswith(ext) for ext in fastq_extensions)] *)
Definition has_fastq_extension (file : string) : bool :=
  existsb (endswith file) fastq_extensions.

(** [pattern is None or re.search(pattern, file)]: the search of the user's
    regular expression is taken as a predicate on file names. *)
Definition pattern_accepts (pattern : option (string → bool)) (file : string) : bool :=
  match pattern with
  | None => true
  | Some search => search file
  end.

(** The directory tree is given by the entries [os.walk(input_dir)] yields,
    in order. *)
Definition find_fastq_files (walk : list walk_entry) (pattern : option (string → bool))
    : list string :=
  merge_sort String.le
    (walk ≫= λ entry,
       path_join entry.1.1
       <$> List.filter (λ file, has_fastq_extension file && pattern_accepts pattern file)
                       entry.2).

(** ** The report of [write_samplesheet] and [main] *)

(** [sum(1 for s in samples.values() if 'R2' in s)] *)
Definition paired_count (samples : gmap string (gmap string string)) : nat :=
  length (List.filter (λ reads : gmap string string, bool_decide (is_Some (reads !! "R2")))
                      (map_to_list samples).*2).

(** The lines [write_samplesheet] prints once the file is written. *)
Definition write_samplesheet_report (samples : gmap string (gmap string string))
    (output_file : string) : list string :=
  [ "Samplesheet written to: " +:+ output_file;
    "Total samples: " +:+ pretty (size samples);
    "Paired-end: " +:+ pretty (paired_count samples);
    "Single-end: " +:+ pretty (Z.of_nat (size samples) - Z.of_nat (paired_count samples))%Z ].

(** The parsed command line. *)
Record Args := {
  arg_input_dir : string;
  arg_output : string;
  arg_strandedness : string;
  arg_pattern : option (string → bool);
  arg_s3_bucket : option string;
  arg_local_prefix : option string
}.

(** The truth value of an optional string: [None] and [''] are false. *)
Definition truthy (s : option string) : bool :=
  match s with
  | Some s => negb (String.eqb s "")
  | None => false
  end.

(** [s3_prefix] as [main] sets it. *)
Definition main_s3_prefix (args : Args) : option S3Prefix :=
  if truthy (arg_s3_bucket args) && truthy (arg_local_prefix args)
  then Some {| local := default "" (arg_local_prefix args);
               s3 := default "" (arg_s3_bucket args) |}
  else None.

(** [main]: the lines printed, and the lines written to [args.output] when
    the file is written. *)
Definition main (o : SetOrder) (walk : list walk_entry) (args : Args)
    : list string * option (list string) :=
  let scanning := "Scanning directory: " +:+ arg_input_dir args in
  let fastq_files := find_fastq_files walk (arg_pattern args) in
  match fastq_files with
  | [] => ([scanning; "ERROR: No FASTQ files found!"], None)
  | _ :: _ =>
      let samples := parse_fastq_pairs o fastq_files in
      (scanning
       :: ("Found " +:+ pretty (length fastq_files) +:+ " FASTQ files")
       :: write_samplesheet_report samples (arg_output args),
       Some (write_samplesheet samples (arg_strandedness args) (main_s3_prefix args)))
  end.

(** The number of [c] in [s]. *)
Fixpoint count_char (c : ascii) (s : string) : nat :=
  match s with
  | EmptyString => 0
  | String a s' => (if Ascii.eqb a c then 1 else 0) + count_char c s'
  end.

(** * [scripts/generate_synthetic_fastq.py]

    The random generator is a stream [draws] of naturals and a position in
    it; a call [floor(random() * n)] of [random.choices] reads the stream
    at the position, reduced below [n], and moves the position on. *)

(** [population[floor(random() * n)]] *)
Definition pick (population : string) (draw : nat) : ascii :=
  default "000"%char (String.get (draw mod String.length population) population).

(** [''.join(random.choices(population, k=k))] *)
Fixpoint choices (population : string) (k : nat) (draws : nat → nat) (pos : nat)
    : string :=
  match k with
  | O => EmptyString
  | S k' => String (pick population (draws pos)) (choices population k' draws (S pos))
  end.

(** The record and the position of the generator after it.  [k] is a Python
    [int]: a negative [read_length] draws nothing. *)
Definition generate_fastq_read (sample_name : string) (read_num read_length mate : Z)
    (draws : nat → nat) (pos : nat) : string * nat :=
  let k := Z.to_nat read_length in
  let read_id := "@" +:+ sample_name +:+ "." +:+ pretty read_num
                 +:+ " " +:+ pretty read_num +:+ "/" +:+ pretty mate in
  let sequence := choices "ACGT" k draws pos in
  let quality := choices "IIIIIIIIIIHHHHHGGGGGFFFFF" k draws (pos + k) in
  (read_id +:+ String newline "" +:+ sequence +:+ String newline ""
   +:+ "+" +:+ String newline "" +:+ quality +:+ String newline "",
   pos + k + k).

(** [for i in range(first, first + count): f.write(generate_fastq_read(...))]:
    the texts written, in order. *)
Fixpoint write_reads (sample_name : string) (read_length mate first : Z) (count : nat)
    (draws : nat → nat) (pos : nat) : list string * nat :=
  match count with
  | O => ([], pos)
  | S count' =>
      let r := generate_fastq_read sample_name first read_length mate draws pos in
      let rest := write_reads sample_name read_length mate (first + 1) count' draws r.2 in
      (r.1 :: rest.1, rest.2)
  end.

(** The two files of a sample, each a name in [output_dir] and the texts
    written to it (before compression), and the position of the generator
    afterwards. *)
Definition generate_sample (sample_name : string) (num_reads read_length : Z)
    (draws : nat → nat) (pos : nat)
    : (string * list string) * (string * list string) * nat :=
  let count := Z.to_nat num_reads in
  let f1 := write_reads sample_name read_length 1 1 count draws pos in
  let f2 := write_reads sample_name read_length 2 1 count draws f1.2 in
  ((sample_name +:+ "_1.fastq.gz", f1.1), (sample_name +:+ "_2.fastq.gz", f2.1), f2.2).

(** The lines written to the samplesheet of the test data. *)
Definition create_samplesheet (samples : list string) : list string :=
  ("sample,fastq_1,fastq_2,strandedness" +:+ String newline "")
  :: map (λ sample_name,
            let r1 := "test_data/fastq/" +:+ sample_name +:+ "_1.fastq.gz" in
            let r2 := "test_data/fastq/" +:+ sample_name +:+ "_2.fastq.gz" in
            sample_name +:+ "," +:+ r1 +:+ "," +:+ r2 +:+ ",auto"
              +:+ String newline "") samples.


(** The stem [n] has a file on one side of the rule [r] only. *)
Definition lone_mate (r : rule) (n f : string) (fastq_files : list string) : Prop :=
  (re_match_group1 r.1 (basename f) = Some n
   ∧ ∀ f2, f2 ∈ fastq_files → re_match_group1 r.2 (basename f2) ≠ Some n)
  ∨ (re_match_group1 r.2 (basename f) = Some n
     ∧ ∀ f1, f1 ∈ fastq_files → re_match_group1 r.1 (basename f1) ≠ Some n).

(** The paths of the files of the test data, as [create_samplesheet] lists
    them: the two files [generate_sample] writes for each sample, in the
    default output directory. *)
Definition test_data_files (samples : list string) : list string :=
  samples ≫= λ sample_name,
    [ "test_data/fastq/" +:+ sample_name +:+ "_1.fastq.gz";
      "test_data/fastq/" +:+ sample_name +:+ "_2.fastq.gz" ].

(** A sample name that is not empty and holds no line feed and no slash. *)
Definition plain_name (s : string) : Prop :=
  s ≠ "" ∧ count_char newline s = 0 ∧ count_char slash s = 0.

(** The record of a sample of the test data. *)
Definition test_record (sample_name : string) : string * gmap string string :=
  (sample_name,
   {[ "R1" := "test_data/fastq/" +:+ sample_name +:+ "_1.fastq.gz";
      "R2" := "test_data/fastq/" +:+ sample_name +:+ "_2.fastq.gz" ]}).


(** [g] is a file the run can assign to the record [n]: its basename has the
    stem [n] under a pattern of a rule, or is [n] with a fastq extension. *)
Definition competes (n g : string) : bool :=
  existsb (λ r : rule,
             bool_decide (re_match_group1 r.1 (basename g) = Some n)
             || bool_decide (re_match_group1 r.2 (basename g) = Some n))
          paired_patterns
  || bool_decide (re_sub_fastq_ext (basename g) = n).


(** * Properties *)

(** ** Strings *)

Lemma append_nil_l s : "" +:+ s = s.
Proof. reflexivity. Qed.

Lemma append_cons c s t : String c s +:+ t = String c (s +:+ t).
Proof. reflexivity. Qed.

Lemma append_nil_r s : s +:+ "" = s.
Proof. induction s as [|c s IH]; [done|]. by rewrite append_cons, IH. Qed.

Lemma append_assoc s t u : (s +:+ t) +:+ u = s +:+ t +:+ u.
Proof. induction s as [|c s IH]; [done|]. by rewrite !append_cons, IH. Qed.

Lemma strip_prefix_Some p s r : strip_prefix p s = Some r ↔ s = p +:+ r.
Proof.
  revert s. induction p as [|a p IH]; intros s; simpl.
  - rewrite append_nil_l. split; congruence.
  - destruct s as [|b s]; [by rewrite append_cons|].
    rewrite append_cons. destruct (Ascii.eqb_spec a b) as [->|Hne].
    + rewrite IH. split; congruence.
    + split; [done|]. intros [= ? _]. congruence.
Qed.

Lemma is_suffix_true t s : is_suffix t s = true ↔ ∃ x, s = x +:+ t.
Proof.
  induction s as [|c s IH]; simpl.
  - rewrite orb_false_r, String.eqb_eq. split.
    + intros ->. by exists "".
    + intros [[|??] Hx]; [by rewrite append_nil_l in Hx | by rewrite append_cons in Hx].
  - rewrite orb_true_iff, String.eqb_eq, IH. split.
    + intros [->|[x ->]]; [by exists ""|]. by exists (String c x).
    + intros [[|a x] Hx].
      * left. by rewrite append_nil_l in Hx.
      * right. rewrite append_cons in Hx. injection Hx as -> ->. by exists x.
Qed.

(** Two ways of cutting one string: one of the two ends ends the other. *)
Lemma append_eq_suffix a t a' t' :
  a +:+ t = a' +:+ t' → is_suffix t t' = true ∨ is_suffix t' t = true.
Proof.
  revert a'. induction a as [|c a IH]; intros a' Heq.
  - right. apply is_suffix_true. by exists a'.
  - destruct a' as [|c' a'].
    + left. apply is_suffix_true. by exists (String c a).
    + rewrite !append_cons in Heq. injection Heq as _ Heq. by apply (IH a').
Qed.

(** ** The matcher *)

Lemma match_items_expansions items s r :
  match_items items s = Some r → s ∈ expansions items.
Proof.
  revert s r. induction items as [|[l|l] k IH]; intros s r; simpl.
  - destruct s as [|c [|??]]; simpl; [set_solver| |done].
    destruct (Ascii.eqb_spec c newline) as [->|]; [set_solver|done].
  - destruct (strip_prefix l s) as [s'|] eqn:Hs; [|done].
    apply strip_prefix_Some in Hs as ->. intros Hm%IH.
    apply list_elem_of_fmap. eauto.
  - rewrite elem_of_app. destruct (strip_prefix l s) as [s'|] eqn:Hs; [|by eauto].
    destruct (match_items k s') as [r'|] eqn:Hm; [|by eauto].
    apply strip_prefix_Some in Hs as ->.
    intros _. left. apply list_elem_of_fmap. eauto.
Qed.

(** What [group(1)] is: a non-empty, line-feed-free start of the string,
    followed by a string the rest of the pattern accepts. *)
Lemma re_match_group1_split items s g :
  re_match_group1 items s = Some g →
  ∃ t, s = g +:+ t ∧ t ∈ expansions items.
Proof.
  revert g. induction s as [|c s IH]; intros g; simpl; [done|].
  destruct (Ascii.eqb c newline); [done|].
  destruct (re_match_group1 items s) as [g'|].
  - intros [= <-]. destruct (IH g' eq_refl) as (t & -> & Ht).
    exists t. by rewrite append_cons.
  - destruct (match_items items s) as [r|] eqn:Hm; [|done].
    intros [= <-]. exists s. split; [done|]. by eapply match_items_expansions.
Qed.

Lemma tails_apart_false p q t t' :
  tails_apart p q = true → t ∈ expansions p → t' ∈ expansions q →
  is_suffix t t' = false ∧ is_suffix t' t = false.
Proof.
  unfold tails_apart. rewrite forallb_forall. intros Hp Ht Ht'.
  apply list_elem_of_In, Hp in Ht. rewrite forallb_forall in Ht.
  apply list_elem_of_In, Ht in Ht'.
  by apply negb_true_iff, orb_false_iff in Ht'.
Qed.

(** No basename matches two patterns that are apart. *)
Lemma apart_no_double_match p q s g g' :
  tails_apart p q = true →
  re_match_group1 p s = Some g → re_match_group1 q s = Some g' → False.
Proof.
  intros Hpq (t & -> & Ht)%re_match_group1_split (t' & Heq & Ht')%re_match_group1_split.
  destruct (tails_apart_false p q t t' Hpq Ht Ht') as [H1 H2].
  apply append_eq_suffix in Heq as [H|H]; congruence.
Qed.

Lemma paired_patterns_exclusive : rules_exclusive paired_patterns = true.
Proof. vm_compute. reflexivity. Qed.


(** ** The sample table *)

Lemma slot_setitem n' k' f' m n k :
  slot (setitem n' k' f' m) n k
  = if decide (n = n' ∧ k = k') then Some f' else slot m n k.
Proof.
  unfold slot, setitem. destruct (decide (n = n')) as [->|Hn].
  - rewrite lookup_insert_eq. simpl. destruct (decide (k = k')) as [->|Hk].
    + rewrite lookup_insert_eq. by rewrite decide_True.
    + rewrite lookup_insert_ne by done. rewrite decide_False by (by intros [_ ?]).
      destruct (m !! n'); simpl; [done|]. apply lookup_empty.
  - rewrite lookup_insert_ne by done. by rewrite decide_False by (by intros [? _]).
Qed.

Lemma slot_empty n k : slot ∅ n k = None.
Proof. unfold slot. by rewrite lookup_empty. Qed.

Lemma slot_apply_write m w n k :
  slot (apply_write m w) n k
  = if decide (n = w.1.1 ∧ k = w.1.2) then Some w.2 else slot m n k.
Proof. apply slot_setitem. Qed.

(** What a slot holds after a list of assignments was there before or was
    assigned. *)
Lemma slot_writes_inv ws m n k f :
  slot (foldl apply_write m ws) n k = Some f →
  slot m n k = Some f ∨ (n, k, f) ∈ ws.
Proof.
  revert m. induction ws as [|[[n' k'] f'] ws IH]; intros m; simpl; [by left|].
  intros [Hs|Hin]%IH; [|right; by right].
  rewrite slot_apply_write in Hs. simpl in Hs. case_decide as Hd; [|by left].
  destruct Hd as [-> ->]. injection Hs as ->. right. by left.
Qed.

(** A slot that is filled or assigned is filled in the end. *)
Lemma slot_writes_is_Some ws m n k :
  is_Some (slot m n k) ∨ (∃ f, (n, k, f) ∈ ws) →
  is_Some (slot (foldl apply_write m ws) n k).
Proof.
  revert m. induction ws as [|[[n' k'] f'] ws IH]; intros m; simpl.
  - intros [?|[f Hf]]; [done|]. by apply elem_of_nil in Hf.
  - intros H. apply IH. rewrite slot_apply_write. simpl.
    case_decide as Hd; [left; eauto|].
    destruct H as [?|[f Hf]]; [by left|].
    apply elem_of_cons in Hf as [[= -> -> ->]|Hf]; [naive_solver|]. right. eauto.
Qed.

(** The last assignment wins: a slot to which only [f] is assigned holds
    [f]. *)
Lemma slot_writes_only ws m n k f :
  slot m n k = Some f ∨ (n, k, f) ∈ ws →
  (∀ g, (n, k, g) ∈ ws → g = f) →
  slot (foldl apply_write m ws) n k = Some f.
Proof.
  revert m. induction ws as [|[[n' k'] f'] ws IH]; intros m; simpl.
  - intros [?|Hf] _; [done|]. by apply elem_of_nil in Hf.
  - intros H Hall. apply IH; [|intros g Hg; apply Hall; by right].
    rewrite slot_apply_write. simpl. case_decide as Hd.
    + destruct Hd as [-> ->]. left. f_equal. apply Hall. by left.
    + destruct H as [?|Hf]; [by left|].
      apply elem_of_cons in Hf as [[= -> -> ->]|Hf]; [naive_solver|]. by right.
Qed.

(** A slot no assignment names keeps what it held. *)
Lemma slot_writes_untouched ws m n k :
  (∀ f, (n, k, f) ∉ ws) → slot (foldl apply_write m ws) n k = slot m n k.
Proof.
  revert m. induction ws as [|[[n' k'] f'] ws IH]; intros m Hno; simpl; [done|].
  rewrite IH by (intros f Hf; apply (Hno f); by right).
  rewrite slot_apply_write. simpl. case_decide as Hd; [|done].
  destruct Hd as [-> ->]. destruct (Hno f'). by left.
Qed.

(** Assignments of fresh paths, each to one slot only, keep the table free
    of duplicates. *)
Lemma writes_injective ws m :
  slots_injective m →
  (∀ n k f, (n, k, f) ∈ ws → ∀ n' k', slot m n' k' ≠ Some f) →
  writes_functional ws →
  slots_injective (foldl apply_write m ws).
Proof.
  induction ws as [|[[n0 k0] f0] ws IH] using rev_ind; [done|].
  intros Hm Hfresh Hfun. rewrite foldl_snoc.
  assert (slots_injective (foldl apply_write m ws)) as Hinj.
  { apply IH; [done| |].
    - intros n k f Hf. apply (Hfresh n k f). apply elem_of_app. by left.
    - intros n k n' k' f H1 H2.
      apply (Hfun n k n' k' f); apply elem_of_app; by left. }
  assert (∀ n k, slot (foldl apply_write m ws) n k = Some f0 → n = n0 ∧ k = k0)
    as Hf0.
  { intros n k [Hs|Hin]%slot_writes_inv.
    - destruct (Hfresh n0 k0 f0 ltac:(apply elem_of_app; right; by left) n k Hs).
    - apply (Hfun n k n0 k0 f0); apply elem_of_app; [by left|right; by left]. }
  intros n k n' k' f. rewrite !slot_apply_write. simpl.
  destruct (decide (n = n0 ∧ k = k0)) as [[-> ->]|Hd];
    destruct (decide (n' = n0 ∧ k' = k0)) as [[-> ->]|Hd'].
  - done.
  - intros [= <-] H2. by destruct (Hf0 _ _ H2) as [-> ->].
  - intros H1 [= <-]. by apply Hf0.
  - apply Hinj.
Qed.

(** ** Iteration orders *)

Lemma elem_of_set_iter o X x : x ∈ set_iter o X ↔ x ∈ X.
Proof. by rewrite (set_iter_perm o X), elem_of_elements. Qed.

Lemma NoDup_set_iter o X : NoDup (set_iter o X).
Proof. rewrite (set_iter_perm o X). apply NoDup_elements. Qed.

(** ** One pass as a list of bindings *)

Lemma find_mate2_Some r2 n order f2 :
  find_mate2 r2 n order = Some f2 →
  f2 ∈ order ∧ re_match_group1 r2 (basename f2) = Some n.
Proof.
  unfold find_mate2. intros [Hin Hp]%find_some. split.
  - by apply list_elem_of_In.
  - by apply bool_decide_eq_true in Hp.
Qed.

Lemma find_mate2_is_Some r2 n order f2 :
  f2 ∈ order → re_match_group1 r2 (basename f2) = Some n →
  is_Some (find_mate2 r2 n order).
Proof.
  intros Hin Hm. unfold find_mate2.
  destruct (find _ order) as [x|] eqn:Hfind; [by eexists|].
  apply list_elem_of_In in Hin.
  pose proof (find_none _ _ Hfind _ Hin) as Hp. simpl in Hp.
  by apply bool_decide_eq_false in Hp.
Qed.

Lemma elem_of_pass_bindings r order l n f1 f2 :
  (n, f1, f2) ∈ pass_bindings r order l ↔
  f1 ∈ l ∧ re_match_group1 r.1 (basename f1) = Some n
  ∧ find_mate2 r.2 n order = Some f2.
Proof.
  unfold pass_bindings. rewrite list_elem_of_omap. split.
  - intros (x & Hx & Hb).
    destruct (re_match_group1 r.1 (basename x)) as [n'|] eqn:Hm; [|done].
    simpl in Hb. destruct (find_mate2 r.2 n' order) as [y|] eqn:Hf; [|done].
    by simplify_eq/=.
  - intros (Hin & Hm & Hf). exists f1. split; [done|].
    rewrite Hm. simpl. by rewrite Hf.
Qed.

Lemma elem_of_binding_writes bs n k f :
  (n, k, f) ∈ binding_writes bs ↔
  ∃ f1 f2, (n, f1, f2) ∈ bs ∧ (k = "R1" ∧ f = f1 ∨ k = "R2" ∧ f = f2).
Proof.
  unfold binding_writes. rewrite list_elem_of_bind. split.
  - intros ([[n' f1] f2] & Hw & Hb). simpl in Hw.
    apply elem_of_cons in Hw as [[= -> -> ->]|Hw]; [by eauto 6|].
    apply list_elem_of_singleton in Hw as [= -> -> ->]. by eauto 6.
  - intros (f1 & f2 & Hb & Hk). exists (n, f1, f2). split; [|done]. simpl.
    destruct Hk as [[-> ->]|[-> ->]]; [by left|]. right. by left.
Qed.

Lemma elem_of_bound_files bs f :
  f ∈ bound_files bs ↔ ∃ n f1 f2, (n, f1, f2) ∈ bs ∧ (f = f1 ∨ f = f2).
Proof.
  unfold bound_files. rewrite elem_of_list_to_set, list_elem_of_bind. split.
  - intros ([[n f1] f2] & Hf & Hb). simpl in Hf. exists n, f1, f2. split; [done|].
    apply elem_of_cons in Hf as [->|Hf]; [by left|].
    apply list_elem_of_singleton in Hf as ->. by right.
  - intros (n & f1 & f2 & Hb & Hf). exists (n, f1, f2). split; [|done]. simpl.
    destruct Hf as [->| ->]; [by left|]. right. by left.
Qed.

(** The inner state of a pass is the fold of its bindings. *)
Lemma foldl_pair_step r order l acc :
  foldl (pair_step r order) acc l
  = (foldl apply_write acc.1 (binding_writes (pass_bindings r order l)),
     bound_files (pass_bindings r order l) ∪ acc.2).
Proof.
  revert acc. induction l as [|x l IH]; intros [m M]; simpl.
  - f_equal. unfold bound_files. simpl. set_solver.
  - rewrite IH. unfold pair_step.
    destruct (re_match_group1 r.1 (basename x)) as [n|]; simpl; [|done].
    destruct (find_mate2 r.2 n order) as [y|]; simpl; [|done].
    f_equal. unfold bound_files. simpl. set_solver.
Qed.

Lemma rule_pass_bindings o st r :
  rule_pass o st r
  = (foldl apply_write st.1
       (binding_writes (pass_bindings r (set_iter o st.2) (set_iter o st.2))),
     st.2 ∖ bound_files (pass_bindings r (set_iter o st.2) (set_iter o st.2))).
Proof.
  unfold rule_pass. rewrite foldl_pair_step. simpl. f_equal. set_solver.
Qed.

(** The whole run is the fold of its assignments. *)
Lemma rules_then_singles_writes o rules st :
  foldl single_step (foldl (rule_pass o) st rules).1
        (set_iter o (foldl (rule_pass o) st rules).2)
  = foldl apply_write st.1 (rules_writes o rules st.2).
Proof.
  revert st. induction rules as [|r rules IH]; intros st; simpl.
  - by rewrite foldl_fmap.
  - rewrite IH, rule_pass_bindings. simpl. by rewrite foldl_app.
Qed.

Lemma parse_fastq_pairs_writes o fastq_files :
  parse_fastq_pairs o fastq_files = foldl apply_write ∅ (parse_writes o fastq_files).
Proof. apply (rules_then_singles_writes o paired_patterns (∅, _)). Qed.

(** ** The assignments of a run *)

Lemma binding_writes_bound bs n k f :
  (n, k, f) ∈ binding_writes bs → f ∈ bound_files bs.
Proof.
  intros (f1 & f2 & Hb & Hk)%elem_of_binding_writes.
  apply elem_of_bound_files. exists n, f1, f2. split; [done|].
  destruct Hk as [[_ ->]|[_ ->]]; auto.
Qed.

(** A file bound by a pass matches one of the two patterns of its rule. *)
Lemma bound_file_matches r order l f :
  f ∈ bound_files (pass_bindings r order l) →
  is_Some (re_match_group1 r.1 (basename f))
  ∨ is_Some (re_match_group1 r.2 (basename f)).
Proof.
  intros (n & f1 & f2 & Hb & Hf)%elem_of_bound_files.
  apply elem_of_pass_bindings in Hb as (_ & Hm & [_ Hm2]%find_mate2_Some).
  destruct Hf as [->| ->]; eauto.
Qed.

(** A file that matches a pattern of [r] is left alone by the pass of a rule
    apart from [r]. *)
Lemma rule_apart_unbound r0 r order l f :
  rule_apart r0 r = true →
  is_Some (re_match_group1 r.1 (basename f))
  ∨ is_Some (re_match_group1 r.2 (basename f)) →
  f ∉ bound_files (pass_bindings r0 order l).
Proof.
  unfold rule_apart. rewrite !andb_true_iff. intros [[[H11 H12] H21] H22] Hr Hb.
  apply bound_file_matches in Hb.
  destruct Hr as [[g Hg]|[g Hg]], Hb as [[g' Hg']|[g' Hg']];
    eauto using apart_no_double_match.
Qed.

(** Every assignment takes its file from the working set. *)
Lemma rules_writes_files o rules rem n k f :
  (n, k, f) ∈ rules_writes o rules rem → f ∈ rem.
Proof.
  revert rem. induction rules as [|r rules IH]; intros rem; simpl.
  - intros (x & Heq & Hx)%list_elem_of_fmap. unfold single_write in Heq.
    simplify_eq. by apply elem_of_set_iter in Hx.
  - intros [Hw|Hw]%elem_of_app.
    + apply binding_writes_bound, elem_of_bound_files in Hw
        as (n' & f1 & f2 & Hb & Hf).
      apply elem_of_pass_bindings in Hb as (Hin & _ & [Hin2 _]%find_mate2_Some).
      destruct Hf as [->| ->]; by eapply elem_of_set_iter.
    + apply IH in Hw. set_solver.
Qed.

Lemma pass_writes_functional r order l :
  tails_apart r.1 r.2 = true →
  writes_functional (binding_writes (pass_bindings r order l)).
Proof.
  intros Hap n k n' k' f (f1 & f2 & Hb & Hk)%elem_of_binding_writes
    (f1' & f2' & Hb' & Hk')%elem_of_binding_writes.
  apply elem_of_pass_bindings in Hb as (_ & Hm & [_ Hm2]%find_mate2_Some).
  apply elem_of_pass_bindings in Hb' as (_ & Hm' & [_ Hm2']%find_mate2_Some).
  destruct Hk as [[-> ->]|[-> ->]], Hk' as [[-> ->]|[-> ->]].
  - split; [congruence|done].
  - destruct (apart_no_double_match _ _ _ _ _ Hap Hm Hm2').
  - destruct (apart_no_double_match _ _ _ _ _ Hap Hm' Hm2).
  - split; [congruence|done].
Qed.

(** No file is assigned to two slots in the course of a run. *)
Lemma rules_writes_functional o rules rem :
  rules_exclusive rules = true → writes_functional (rules_writes o rules rem).
Proof.
  revert rem. induction rules as [|r rules IH]; intros rem; simpl.
  - intros _ n k n' k' f (x & Heq & _)%list_elem_of_fmap
      (x' & Heq' & _)%list_elem_of_fmap.
    unfold single_write in *. by simplify_eq.
  - rewrite !andb_true_iff. intros [[Hap _] Hex] n k n' k' f.
    intros [H1|H1]%elem_of_app [H2|H2]%elem_of_app.
    + by eapply pass_writes_functional.
    + apply binding_writes_bound in H1. apply rules_writes_files in H2. set_solver.
    + apply binding_writes_bound in H2. apply rules_writes_files in H1. set_solver.
    + by eapply IH.
Qed.

(** Every file of the working set is assigned at least once. *)
Lemma rules_writes_complete o rules rem f :
  f ∈ rem → ∃ n k, (n, k, f) ∈ rules_writes o rules rem.
Proof.
  revert rem. induction rules as [|r rules IH]; intros rem Hf; simpl.
  - exists (re_sub_fastq_ext (basename f)), "R1".
    apply (list_elem_of_fmap_2 single_write). by apply elem_of_set_iter.
  - set (bs := pass_bindings r (set_iter o rem) (set_iter o rem)).
    destruct (decide (f ∈ bound_files bs)) as [Hb|Hb].
    + apply elem_of_bound_files in Hb as (n & f1 & f2 & Hb & Hk).
      exists n, (if decide (f = f1) then "R1" else "R2").
      apply elem_of_app. left. apply elem_of_binding_writes.
      exists f1, f2. split; [done|]. case_decide; [by left|].
      right. by destruct Hk.
    + destruct (IH (rem ∖ bound_files bs)) as (n & k & Hw); [set_solver|].
      exists n, k. apply elem_of_app. by right.
Qed.

(** A mate-2 assignment comes from a rule and two files of the working set
    with the same stem. *)
Lemma rules_writes_R2 o rules rem n f2 :
  (n, "R2", f2) ∈ rules_writes o rules rem →
  ∃ r f1, r ∈ rules ∧ f1 ∈ rem ∧ f2 ∈ rem
    ∧ re_match_group1 r.1 (basename f1) = Some n
    ∧ re_match_group1 r.2 (basename f2) = Some n.
Proof.
  revert rem. induction rules as [|r rules IH]; intros rem; simpl.
  - intros (x & Heq & _)%list_elem_of_fmap. by unfold single_write in Heq.
  - intros [Hw|Hw]%elem_of_app.
    + apply elem_of_binding_writes in Hw as (f1 & f2' & Hb & Hk).
      destruct Hk as [[? _]|[_ <-]]; [done|].
      apply elem_of_pass_bindings in Hb as (Hin & Hm & [Hin2 Hm2]%find_mate2_Some).
      exists r, f1. rewrite elem_of_set_iter in Hin, Hin2.
      split_and!; [by left|done..].
    + apply IH in Hw as (r' & f1 & Hr & Hf1 & Hf2 & Hm).
      exists r', f1. split_and!; [by right|set_solver..|apply Hm|apply Hm].
Qed.

(** Two files of the working set that a rule pairs under a stem make the
    run assign the mate-2 slot of that stem. *)
Lemma rules_writes_pair o rules rem r n f1 f2 :
  rules_exclusive rules = true → r ∈ rules → f1 ∈ rem → f2 ∈ rem →
  re_match_group1 r.1 (basename f1) = Some n →
  re_match_group1 r.2 (basename f2) = Some n →
  ∃ f2', (n, "R2", f2') ∈ rules_writes o rules rem.
Proof.
  revert rem. induction rules as [|r0 rules IH]; intros rem; simpl.
  - intros _ Hr. by apply elem_of_nil in Hr.
  - rewrite !andb_true_iff. intros [[_ Hall] Hex] Hr Hf1 Hf2 Hm1 Hm2.
    apply elem_of_cons in Hr as [->|Hr].
    + destruct (find_mate2_is_Some r0.2 n (set_iter o rem) f2) as [f2' Hf];
        [by apply elem_of_set_iter|done|].
      exists f2'. apply elem_of_app. left. apply elem_of_binding_writes.
      exists f1, f2'. split; [|by right].
      apply elem_of_pass_bindings. split_and!; [by apply elem_of_set_iter|done..].
    + rewrite forallb_forall in Hall.
      pose proof (Hall r (proj1 (list_elem_of_In _ _) Hr)) as Hap.
      destruct (IH (rem ∖ bound_files
                      (pass_bindings r0 (set_iter o rem) (set_iter o rem))))
        as [f2' Hw]; [done..| | |done|done|].
      * apply elem_of_difference. split; [done|].
        eapply rule_apart_unbound; eauto.
      * apply elem_of_difference. split; [done|].
        eapply rule_apart_unbound; eauto.
      * exists f2'. apply elem_of_app. by right.
Qed.

(** ** The paths of a table *)

Lemma elem_of_slot_values m f :
  f ∈ slot_values m ↔ ∃ n k, slot m n k = Some f.
Proof.
  unfold slot_values, slot. rewrite list_elem_of_bind. split.
  - intros ([n reads] & Hf & Hm). simpl in Hf.
    apply list_elem_of_fmap in Hf as ([k f'] & -> & Hk).
    apply elem_of_map_to_list in Hm, Hk. exists n, k. by rewrite Hm.
  - intros (n & k & Hs). apply bind_Some in Hs as (reads & Hm & Hk).
    exists (n, reads). split; [|by apply elem_of_map_to_list].
    apply list_elem_of_fmap. exists (k, f). split; [done|].
    by apply elem_of_map_to_list.
Qed.

Lemma NoDup_slot_values m : slots_injective m → NoDup (slot_values m).
Proof.
  intros Hinj. apply NoDup_bind; [| |apply NoDup_map_to_list].
  - intros [n1 r1] [n2 r2] y Hm1%elem_of_map_to_list Hm2%elem_of_map_to_list.
    simpl. intros ([k1 ?] & -> & Hk1%elem_of_map_to_list)%list_elem_of_fmap
      ([k2 ?] & Heq & Hk2%elem_of_map_to_list)%list_elem_of_fmap.
    simpl in Heq. subst. destruct (Hinj n1 k1 n2 k2 s0) as [-> _].
    + unfold slot. by rewrite Hm1.
    + unfold slot. by rewrite Hm2.
    + congruence.
  - intros [n reads] Hm%elem_of_map_to_list. simpl.
    apply NoDup_fmap_2_strong; [|apply NoDup_map_to_list].
    intros [k1 f1] [k2 f2] Hk1%elem_of_map_to_list Hk2%elem_of_map_to_list Heq.
    simpl in Heq. subst. destruct (Hinj n k1 n k2 f2) as [_ ->]; [| |done].
    + unfold slot. by rewrite Hm.
    + unfold slot. by rewrite Hm.
Qed.

Lemma no_overwrite_true ws n k f g :
  no_overwrite ws = true → (n, k, f) ∈ ws → (n, k, g) ∈ ws → f = g.
Proof.
  unfold no_overwrite. rewrite forallb_forall. intros Hall Hf Hg.
  apply list_elem_of_In, Hall in Hf. rewrite forallb_forall in Hf.
  apply list_elem_of_In, Hf, bool_decide_eq_true in Hg. by apply Hg.
Qed.

Lemma slots_injective_empty : slots_injective ∅.
Proof. intros n k n' k' f. by rewrite slot_empty. Qed.

(** The table of a run holds each path once. *)
Lemma parse_fastq_pairs_injective o fastq_files :
  slots_injective (parse_fastq_pairs o fastq_files).
Proof.
  rewrite parse_fastq_pairs_writes. apply writes_injective.
  - apply slots_injective_empty.
  - intros n k f _ n' k'. by rewrite slot_empty.
  - apply rules_writes_functional, paired_patterns_exclusive.
Qed.

(** The table of a run holds input files only. *)
Lemma parse_fastq_pairs_sound o fastq_files n k f :
  slot (parse_fastq_pairs o fastq_files) n k = Some f →
  (n, k, f) ∈ parse_writes o fastq_files ∧ f ∈ fastq_files.
Proof.
  rewrite parse_fastq_pairs_writes. intros [Hs|Hw]%slot_writes_inv.
  - by rewrite slot_empty in Hs.
  - split; [done|]. apply rules_writes_files in Hw.
    by apply elem_of_list_to_set in Hw.
Qed.

(** ** C1 *)

(** C1, as amended.  For every iteration order and every input list: the
    paths in the slots of the returned table are pairwise distinct (no file is
    duplicated) and are input files (none is invented); when no slot is
    assigned two different files in the course of the run, they are exactly
    the input set.  (A file is dropped when another file is bound to the
    same sample name and slot after it.) *)
Theorem parse_fastq_pairs_slot_values o fastq_files :
  NoDup (slot_values (parse_fastq_pairs o fastq_files))
  ∧ (∀ f, f ∈ slot_values (parse_fastq_pairs o fastq_files) → f ∈ fastq_files)
  ∧ (no_overwrite (parse_writes o fastq_files) = true →
     slot_values (parse_fastq_pairs o fastq_files)
     ≡ₚ elements (list_to_set fastq_files : gset string)).
Proof.
  assert (∀ f, f ∈ slot_values (parse_fastq_pairs o fastq_files) → f ∈ fastq_files)
    as Hsound.
  { intros f (n & k & Hs)%elem_of_slot_values.
    by apply parse_fastq_pairs_sound in Hs as [_ ?]. }
  split_and!; [apply NoDup_slot_values, parse_fastq_pairs_injective|done|].
  intros Hno. apply NoDup_Permutation.
  - apply NoDup_slot_values, parse_fastq_pairs_injective.
  - apply NoDup_elements.
  - intros f. rewrite elem_of_elements, elem_of_list_to_set.
    split; [apply Hsound|]. intros Hf.
    destruct (rules_writes_complete o paired_patterns (list_to_set fastq_files) f)
      as (n & k & Hw); [by apply elem_of_list_to_set|].
    apply elem_of_slot_values. exists n, k.
    rewrite parse_fastq_pairs_writes. apply slot_writes_only; [by right|].
    intros g Hg. by apply (no_overwrite_true _ n k g f Hno).
Qed.

Lemma parse_fastq_pairs_slot_values_witness :
  slot_values (parse_fastq_pairs elements_order
                 ["A_R1_001.fastq.gz"; "A_R2_001.fastq.gz"; "C.fastq.gz"])
  ≡ₚ elements (list_to_set ["A_R1_001.fastq.gz"; "A_R2_001.fastq.gz"; "C.fastq.gz"]
               : gset string).
Proof.
  apply (proj2 (proj2 (parse_fastq_pairs_slot_values elements_order
           ["A_R1_001.fastq.gz"; "A_R2_001.fastq.gz"; "C.fastq.gz"]))).
  vm_compute. reflexivity.
Defined.

(** C1 as stated fails: with the files of one sample name in two
    directories, the two mate-1 files are bound under the same name with the
    same mate-2 file, the second overwriting the first, and the table is left
    with three of the four input files. *)
Lemma parse_fastq_pairs_drops_a_file :
  ¬ (slot_values
       (parse_fastq_pairs elements_order
          ["a/S_R1.fastq.gz"; "a/S_R2.fastq.gz"; "b/S_R1.fastq.gz"; "b/S_R2.fastq.gz"])
     ≡ₚ elements
          (list_to_set
             ["a/S_R1.fastq.gz"; "a/S_R2.fastq.gz"; "b/S_R1.fastq.gz"; "b/S_R2.fastq.gz"]
           : gset string)).
Proof. intros H%Permutation_length. vm_compute in H. discriminate H. Qed.

(** ** C3 *)

Lemma slot_lookup m n reads k : m !! n = Some reads → slot m n k = reads !! k.
Proof. unfold slot. by intros ->. Qed.

Lemma has_mate1_setitem n k f m :
  has_mate1 m → k = "R1" ∨ is_Some (slot m n "R1") →
  has_mate1 (setitem n k f m).
Proof.
  intros Hm Hk n' reads. unfold setitem.
  destruct (decide (n' = n)) as [->|Hn];
    [rewrite lookup_insert_eq|rewrite lookup_insert_ne by done; apply Hm].
  intros [= <-]. destruct (decide (k = "R1")) as [->|Hne].
  - rewrite lookup_insert_eq. by eexists.
  - rewrite lookup_insert_ne by done. destruct Hk as [?|[g Hg]]; [done|].
    unfold slot in Hg. destruct (m !! n); simpl in *; [by eexists|done].
Qed.

Lemma has_mate1_pair_step r order acc file1 :
  has_mate1 acc.1 → has_mate1 (pair_step r order acc file1).1.
Proof.
  intros Hm. unfold pair_step.
  destruct (re_match_group1 r.1 (basename file1)) as [n|]; [|done].
  destruct (find_mate2 r.2 n order) as [file2|]; [|done]. simpl.
  apply has_mate1_setitem; [apply has_mate1_setitem; auto|].
  right. rewrite slot_setitem, decide_True by done. by eexists.
Qed.

Lemma has_mate1_rule_pass o st r : has_mate1 st.1 → has_mate1 (rule_pass o st r).1.
Proof.
  intros Hm. unfold rule_pass. simpl.
  generalize (set_iter o st.2) at 2 as l. generalize (∅ : gset string) as M.
  revert Hm. generalize st.1 as m. intros m Hm M l. revert m M Hm.
  induction l as [|x l IH]; intros m M Hm; simpl; [done|].
  pose proof (has_mate1_pair_step r (set_iter o st.2) (m, M) x Hm) as Hs.
  destruct (pair_step r (set_iter o st.2) (m, M) x) as [m' M']. by apply IH.
Qed.

(** Every record of the returned table has its mate-1 slot. *)
Lemma has_mate1_parse_fastq_pairs o fastq_files :
  has_mate1 (parse_fastq_pairs o fastq_files).
Proof.
  unfold parse_fastq_pairs, run_rules.
  assert (has_mate1 (foldl (rule_pass o) (∅, list_to_set fastq_files)
                       paired_patterns).1) as Hrules.
  { generalize paired_patterns as rules.
    assert (has_mate1 (∅, list_to_set fastq_files : gset string).1) as H0
      by (intros n reads; simpl; by rewrite lookup_empty).
    revert H0. generalize (∅ : gmap string (gmap string string),
                           list_to_set fastq_files : gset string) as st.
    intros st H0 rules. revert st H0.
    induction rules as [|r rules IH]; intros st H0; simpl; [done|].
    by apply IH, has_mate1_rule_pass. }
  revert Hrules. generalize (set_iter o (foldl (rule_pass o)
    (∅, list_to_set fastq_files) paired_patterns).2) as l.
  generalize (foldl (rule_pass o) (∅, list_to_set fastq_files) paired_patterns).1
    as m.
  intros m l. revert m. induction l as [|x l IH]; intros m Hm; simpl; [done|].
  apply IH. apply has_mate1_setitem; auto.
Qed.

(** C3.  Every record of the returned table has its mate-1 slot, and it has
    a mate-2 slot exactly when two input files are paired by one rule under
    the record's name: the basename of one matches the mate-1 pattern, the
    basename of the other the mate-2 pattern, and both give the name as
    stem.  The file in the mate-2 slot is itself such a mate-2 file. *)
Theorem parse_fastq_pairs_mates o fastq_files n reads :
  parse_fastq_pairs o fastq_files !! n = Some reads →
  is_Some (reads !! "R1")
  ∧ (∀ f2, reads !! "R2" = Some f2 →
       ∃ r f1, r ∈ paired_patterns ∧ f1 ∈ fastq_files ∧ f2 ∈ fastq_files
         ∧ re_match_group1 r.1 (basename f1) = Some n
         ∧ re_match_group1 r.2 (basename f2) = Some n)
  ∧ (is_Some (reads !! "R2") ↔
       ∃ r f1 f2, r ∈ paired_patterns ∧ f1 ∈ fastq_files ∧ f2 ∈ fastq_files
         ∧ re_match_group1 r.1 (basename f1) = Some n
         ∧ re_match_group1 r.2 (basename f2) = Some n).
Proof.
  intros Hn.
  assert (∀ f2, reads !! "R2" = Some f2 →
       ∃ r f1, r ∈ paired_patterns ∧ f1 ∈ fastq_files ∧ f2 ∈ fastq_files
         ∧ re_match_group1 r.1 (basename f1) = Some n
         ∧ re_match_group1 r.2 (basename f2) = Some n) as Hto.
  { intros f2 Hf2. rewrite <-(slot_lookup _ _ _ _ Hn) in Hf2.
    apply parse_fastq_pairs_sound in Hf2 as [Hw _].
    apply rules_writes_R2 in Hw as (r & f1 & Hr & Hf1 & Hf2 & Hm).
    apply elem_of_list_to_set in Hf1, Hf2. destruct Hm. by exists r, f1. }
  split_and!; [by eapply has_mate1_parse_fastq_pairs|done|]. split.
  - intros [f2 Hf2]. destruct (Hto f2 Hf2) as (r & f1 & H). by exists r, f1, f2.
  - intros (r & f1 & f2 & Hr & Hf1 & Hf2 & Hm1 & Hm2).
    rewrite <-(slot_lookup _ _ _ _ Hn), parse_fastq_pairs_writes.
    apply slot_writes_is_Some. right.
    eapply (rules_writes_pair o paired_patterns _ r n f1 f2);
      [apply paired_patterns_exclusive|done|..|done|done];
      by apply elem_of_list_to_set.
Qed.

Lemma parse_fastq_pairs_mates_witness :
  is_Some (({[ "R1" := "A_R1_001.fastq.gz"; "R2" := "A_R2_001.fastq.gz" ]}
            : gmap string string) !! "R1").
Proof.
  apply (parse_fastq_pairs_mates elements_order
           ["A_R1_001.fastq.gz"; "A_R2_001.fastq.gz"] "A").
  vm_compute. reflexivity.
Defined.

(** ** C2 *)

Lemma foldl_bind_writes m bs :
  foldl bind m bs = foldl apply_write m (binding_writes bs).
Proof.
  revert m. induction bs as [|[[n f1] f2] bs IH]; intros m; simpl; [done|].
  by rewrite IH.
Qed.

Lemma pass_bindings_cons r order x l :
  pass_bindings r order (x :: l)
  = match re_match_group1 r.1 (basename x) with
    | Some n =>
        match find_mate2 r.2 n order with
        | Some y => (n, x, y) :: pass_bindings r order l
        | None => pass_bindings r order l
        end
    | None => pass_bindings r order l
    end.
Proof.
  unfold pass_bindings. simpl.
  destruct (re_match_group1 r.1 (basename x)) as [n|]; simpl; [|done].
  by destruct (find_mate2 r.2 n order).
Qed.

(** The bindings a pass records under one stem: one for each mate-1 file of
    the walk with that stem, all with the first mate-2 file of that stem. *)
Lemma pass_bindings_of_stem r order l n :
  filter (λ b, b.1.1 = n) (pass_bindings r order l)
  = match find_mate2 r.2 n order with
    | Some file2 =>
        (λ file1, (n, file1, file2))
        <$> filter (λ file1, re_match_group1 r.1 (basename file1) = Some n) l
    | None => []
    end.
Proof.
  induction l as [|x l IH].
  - by destruct (find_mate2 r.2 n order).
  - rewrite pass_bindings_cons, (filter_cons _ x).
    destruct (re_match_group1 r.1 (basename x)) as [n'|] eqn:Hm.
    + destruct (find_mate2 r.2 n' order) as [y|] eqn:Hf.
      * rewrite filter_cons. simpl. destruct (decide (n' = n)) as [->|Hne].
        -- rewrite decide_True by done. by rewrite Hf, IH, Hf.
        -- rewrite decide_False by congruence. apply IH.
      * rewrite IH. destruct (decide (Some n' = Some n)) as [[= ->]|Hne]; [|done].
        by rewrite Hf.
    + rewrite decide_False by done. apply IH.
Qed.

Lemma pass_bindings_mate1 r order l f1 :
  f1 ∈ (pass_bindings r order l).*1.*2 → f1 ∈ l.
Proof.
  intros ([n f1'] & -> & ([[n' f1''] f2] & [= -> ->] & Hb)%list_elem_of_fmap)
    %list_elem_of_fmap.
  by apply elem_of_pass_bindings in Hb as [? _].
Qed.

Lemma NoDup_pass_bindings_mate1 r order l :
  NoDup l → NoDup (pass_bindings r order l).*1.*2.
Proof.
  induction 1 as [|x l Hx Hl IH]; [constructor|].
  rewrite pass_bindings_cons.
  destruct (re_match_group1 r.1 (basename x)) as [n|]; [|done].
  destruct (find_mate2 r.2 n order) as [y|]; [|done].
  simpl. constructor; [|done]. intros Hin. by apply pass_bindings_mate1 in Hin.
Qed.

(** C2, as amended.  In one pass over the working set, with [bs] the bindings
    the pass performs in order: the pass is the fold of [bs] into the table
    and removes the files of [bs] from the working set; every mate-1 file
    binds at most once; and under a stem [n] the pass binds once for each
    mate-1 file of the working set with that stem, each time with the same
    mate-2 file (the first of that stem in the iteration), or not at all when
    no mate-2 file has that stem.  A stem with several mate-1 files thus
    binds several times, each binding overwriting the previous one. *)
Theorem rule_pass_bindings_per_stem o st r n :
  rule_pass o st r
  = (foldl bind st.1 (pass_bindings r (set_iter o st.2) (set_iter o st.2)),
     st.2 ∖ bound_files (pass_bindings r (set_iter o st.2) (set_iter o st.2)))
  ∧ NoDup (pass_bindings r (set_iter o st.2) (set_iter o st.2)).*1.*2
  ∧ filter (λ b, b.1.1 = n) (pass_bindings r (set_iter o st.2) (set_iter o st.2))
    = match find_mate2 r.2 n (set_iter o st.2) with
      | Some file2 =>
          (λ file1, (n, file1, file2))
          <$> filter (λ file1, re_match_group1 r.1 (basename file1) = Some n)
                     (set_iter o st.2)
      | None => []
      end.
Proof.
  split_and!.
  - by rewrite rule_pass_bindings, foldl_bind_writes.
  - apply NoDup_pass_bindings_mate1, NoDup_set_iter.
  - apply pass_bindings_of_stem.
Qed.

(** C2 as stated fails: in the pass of the first rule over the files of
    one sample name in two directories, two pairs are recorded under the
    stem [S]. *)
Lemma rule_pass_binds_a_stem_twice :
  ¬ NoDup
      (pass_bindings rule_R1_R2
         (set_iter elements_order
            (list_to_set ["a/S_R1.fastq.gz"; "a/S_R2.fastq.gz";
                          "b/S_R1.fastq.gz"; "b/S_R2.fastq.gz"]))
         (set_iter elements_order
            (list_to_set ["a/S_R1.fastq.gz"; "a/S_R2.fastq.gz";
                          "b/S_R1.fastq.gz"; "b/S_R2.fastq.gz"]))).*1.*1.
Proof.
  assert ((pass_bindings rule_R1_R2
         (set_iter elements_order
            (list_to_set ["a/S_R1.fastq.gz"; "a/S_R2.fastq.gz";
                          "b/S_R1.fastq.gz"; "b/S_R2.fastq.gz"]))
         (set_iter elements_order
            (list_to_set ["a/S_R1.fastq.gz"; "a/S_R2.fastq.gz";
                          "b/S_R1.fastq.gz"; "b/S_R2.fastq.gz"]))).*1.*1
          = ["S"; "S"]) as -> by (vm_compute; reflexivity).
  intros [Hx _]%NoDup_cons. apply Hx. by left.
Qed.

(** ** Independence of the iteration order *)

Lemma injective_on_true g fs f f' n :
  injective_on g fs = true → f ∈ fs → f' ∈ fs → g f = Some n → g f' = Some n →
  f = f'.
Proof.
  unfold injective_on. rewrite forallb_forall. intros Hall Hf Hf' Hg Hg'.
  apply list_elem_of_In, Hall in Hf. rewrite forallb_forall in Hf.
  apply list_elem_of_In, Hf, bool_decide_eq_true in Hf'.
  destruct Hf' as [?|?]; congruence.
Qed.

(** Two tables with the same records and the same slots are equal. *)
Lemma table_eq (m1 m2 : gmap string (gmap string string)) :
  (∀ n, is_Some (m1 !! n) ↔ is_Some (m2 !! n)) →
  (∀ n k, slot m1 n k = slot m2 n k) → m1 = m2.
Proof.
  intros Hdom Hslot. apply map_eq. intros n.
  specialize (Hdom n). pose proof (Hslot n) as Hn. unfold slot in Hn.
  destruct (m1 !! n) as [r1|], (m2 !! n) as [r2|]; simpl in *.
  - f_equal. by apply map_eq.
  - by destruct Hdom as [[? ?] _].
  - by destruct Hdom as [_ [? ?]].
  - done.
Qed.

Lemma setitem_is_Some n k f m n' :
  is_Some (setitem n k f m !! n') ↔ n' = n ∨ is_Some (m !! n').
Proof.
  unfold setitem. destruct (decide (n' = n)) as [->|Hn].
  - rewrite lookup_insert_eq. split; [by left|by eexists].
  - rewrite lookup_insert_ne by done. split; [by right|]. by intros [?|?].
Qed.

Lemma writes_is_Some ws m n :
  is_Some (foldl apply_write m ws !! n)
  ↔ is_Some (m !! n) ∨ ∃ k f, (n, k, f) ∈ ws.
Proof.
  revert m. induction ws as [|[[n' k'] f'] ws IH]; intros m; simpl.
  - split; [by left|]. intros [?|(k & f & Hf)]; [done|].
    by apply elem_of_nil in Hf.
  - rewrite IH. unfold apply_write. simpl. rewrite setitem_is_Some. split.
    + intros [[->|?]|(k & f & Hf)]; [right; exists k', f'; by left|by left|].
      right. exists k, f. by right.
    + intros [?|(k & f & Hf)]; [left; by right|].
      apply elem_of_cons in Hf as [[= -> -> ->]|Hf]; [left; by left|].
      right. by exists k, f.
Qed.

(** Two lists of assignments with the same members, none of them
    overwriting another, build the same table. *)
Lemma writes_same_members ws1 ws2 m :
  (∀ w, w ∈ ws1 ↔ w ∈ ws2) →
  (∀ n k f g, (n, k, f) ∈ ws1 → (n, k, g) ∈ ws1 → f = g) →
  foldl apply_write m ws1 = foldl apply_write m ws2.
Proof.
  intros Hsame Hno. apply table_eq.
  - intros n. rewrite !writes_is_Some. by setoid_rewrite Hsame.
  - intros n k.
    destruct (decide (Exists (λ w, w.1 = (n, k)) ws1)) as [Hex|Hnone].
    + apply Exists_exists in Hex as ([[n' k'] f] & Hf & [= -> ->]).
      rewrite (slot_writes_only ws1 m n k f), (slot_writes_only ws2 m n k f);
        first done.
      * right. by apply Hsame.
      * intros g Hg. apply Hsame in Hg. eauto.
      * by right.
      * intros g Hg. eauto.
    + rewrite !slot_writes_untouched; first done.
      * intros f Hf. apply Hnone, Exists_exists. exists (n, k, f).
        split; [by apply Hsame|done].
      * intros f Hf. apply Hnone, Exists_exists. by exists (n, k, f).
Qed.

Lemma find_mate2_order r2 n l1 l2 fs :
  injective_on (λ f, re_match_group1 r2 (basename f)) fs = true →
  (∀ x, x ∈ l1 ↔ x ∈ l2) → (∀ x, x ∈ l1 → x ∈ fs) →
  find_mate2 r2 n l1 = find_mate2 r2 n l2.
Proof.
  intros Hinj Hsame Hsub.
  destruct (find_mate2 r2 n l1) as [x|] eqn:H1,
    (find_mate2 r2 n l2) as [y|] eqn:H2; [| | |done].
  - apply find_mate2_Some in H1 as [Hx Hmx], H2 as [Hy Hmy]. f_equal.
    apply (injective_on_true (λ f, re_match_group1 r2 (basename f)) fs x y n);
      [done|by apply Hsub|by apply Hsub, Hsame|done..].
  - apply find_mate2_Some in H1 as [Hx Hmx].
    destruct (find_mate2_is_Some r2 n l2 x) as [? ?];
      [by apply Hsame|done|congruence].
  - apply find_mate2_Some in H2 as [Hy Hmy].
    destruct (find_mate2_is_Some r2 n l1 y) as [? ?];
      [by apply Hsame|done|congruence].
Qed.

Lemma rule_pass_remaining o st r x : x ∈ (rule_pass o st r).2 → x ∈ st.2.
Proof. rewrite rule_pass_bindings. simpl. set_solver. Qed.

Lemma foldl_rule_pass_remaining o rules st x :
  x ∈ (foldl (rule_pass o) st rules).2 → x ∈ st.2.
Proof.
  revert st. induction rules as [|r rules IH]; intros st; simpl; [done|].
  intros Hx%IH. by eapply rule_pass_remaining.
Qed.

(** A pass does not depend on the iteration order when the stems of its rule
    are unambiguous. *)
Lemma rule_pass_order o o' st r fs :
  injective_on (λ f, re_match_group1 r.1 (basename f)) fs = true →
  injective_on (λ f, re_match_group1 r.2 (basename f)) fs = true →
  (∀ x, x ∈ st.2 → x ∈ fs) →
  rule_pass o st r = rule_pass o' st r.
Proof.
  intros H1 H2 Hsub. rewrite !rule_pass_bindings.
  assert (∀ b, b ∈ pass_bindings r (set_iter o st.2) (set_iter o st.2)
             ↔ b ∈ pass_bindings r (set_iter o' st.2) (set_iter o' st.2)) as Hb.
  { intros [[n f1] f2]. rewrite !elem_of_pass_bindings, !elem_of_set_iter.
    rewrite (find_mate2_order r.2 n (set_iter o st.2) (set_iter o' st.2) fs);
      [done..| |].
    - intros x. by rewrite !elem_of_set_iter.
    - intros x Hx%elem_of_set_iter. by apply Hsub. }
  f_equal.
  - apply writes_same_members.
    + intros [[n k] f]. rewrite !elem_of_binding_writes.
      by repeat (f_equiv; intros ?); rewrite Hb.
    + intros n k f g (f1 & f2 & Hb1 & Hk1)%elem_of_binding_writes
        (g1 & g2 & Hb2 & Hk2)%elem_of_binding_writes.
      apply elem_of_pass_bindings in Hb1 as (Hf1 & Hm1 & Hfind1).
      apply elem_of_pass_bindings in Hb2 as (Hg1 & Hn1 & Hfind2).
      rewrite elem_of_set_iter in Hf1, Hg1.
      destruct Hk1 as [[-> ->]|[-> ->]], Hk2 as [[? ->]|[? ->]]; try done.
      * by apply (injective_on_true (λ f, re_match_group1 r.1 (basename f))
                    fs f1 g1 n); auto.
      * congruence.
  - f_equal. apply set_eq. intros x. rewrite !elem_of_bound_files.
    by repeat (f_equiv; intros ?); rewrite Hb.
Qed.

Lemma foldl_rule_pass_order o o' rules st fs :
  forallb (λ r : rule,
             injective_on (λ f, re_match_group1 r.1 (basename f)) fs
             && injective_on (λ f, re_match_group1 r.2 (basename f)) fs) rules
  = true →
  (∀ x, x ∈ st.2 → x ∈ fs) →
  foldl (rule_pass o) st rules = foldl (rule_pass o') st rules.
Proof.
  revert st. induction rules as [|r rules IH]; intros st; simpl; [done|].
  rewrite !andb_true_iff. intros [[H1 H2] Hall] Hsub.
  rewrite (rule_pass_order o o' st r fs) by done. apply IH; [done|].
  intros x Hx%rule_pass_remaining. by apply Hsub.
Qed.

Lemma foldl_single_step_order o o' m X fs :
  injective_on (λ f, Some (re_sub_fastq_ext (basename f))) fs = true →
  (∀ x, x ∈ X → x ∈ fs) →
  foldl single_step m (set_iter o X) = foldl single_step m (set_iter o' X).
Proof.
  intros Hinj Hsub.
  change single_step with (λ m f, apply_write m (single_write f)).
  rewrite <-!(foldl_fmap apply_write m _ single_write).
  apply writes_same_members.
  - intros w. rewrite !list_elem_of_fmap. by setoid_rewrite elem_of_set_iter.
  - intros n k f g (x & Hx & Hin)%list_elem_of_fmap (y & Hy & Hin')%list_elem_of_fmap.
    unfold single_write in *. simplify_eq.
    rewrite elem_of_set_iter in Hin, Hin'.
    apply (injective_on_true (λ f, Some (re_sub_fastq_ext (basename f))) fs x y
             (re_sub_fastq_ext (basename x))); auto. simpl. by f_equal.
Qed.

(** The table does not depend on the iteration order when no two input
    files compete for a slot. *)
Lemma parse_fastq_pairs_order o o' fastq_files :
  unambiguous paired_patterns fastq_files = true →
  parse_fastq_pairs o fastq_files = parse_fastq_pairs o' fastq_files.
Proof.
  unfold unambiguous. rewrite andb_true_iff. intros [Hrules Hnames].
  unfold parse_fastq_pairs, run_rules.
  rewrite (foldl_rule_pass_order o o' paired_patterns _ fastq_files);
    [|done|intros x; simpl; by rewrite elem_of_list_to_set].
  apply (foldl_single_step_order o o' _ _ fastq_files); [done|].
  intros x Hx%foldl_rule_pass_remaining. by apply elem_of_list_to_set in Hx.
Qed.

(** ** C8 *)

(** C8, as amended.  The resolver is a function of the input and of the
    order in which the interpreter iterates the working set; its result is
    the same for every iteration order when no two input files have the same
    stem under the same pattern and no two have the same basename less the
    fastq extension. *)
Theorem parse_fastq_pairs_deterministic o o' fastq_files :
  unambiguous paired_patterns fastq_files = true →
  parse_fastq_pairs o fastq_files = parse_fastq_pairs o' fastq_files.
Proof. apply parse_fastq_pairs_order. Qed.

Lemma parse_fastq_pairs_deterministic_witness :
  parse_fastq_pairs elements_order
    ["A_R1_001.fastq.gz"; "A_R2_001.fastq.gz"; "C.fastq.gz"]
  = parse_fastq_pairs reverse_order
      ["A_R1_001.fastq.gz"; "A_R2_001.fastq.gz"; "C.fastq.gz"].
Proof.
  apply (parse_fastq_pairs_deterministic elements_order reverse_order).
  vm_compute. reflexivity.
Defined.

(** C8 as stated fails: with the files of one sample name in two
    directories, two iteration orders of the same input set give two
    different tables. *)
Lemma parse_fastq_pairs_depends_on_order :
  parse_fastq_pairs elements_order
    ["a/S_R1.fastq.gz"; "a/S_R2.fastq.gz"; "b/S_R1.fastq.gz"; "b/S_R2.fastq.gz"]
  ≠ parse_fastq_pairs reverse_order
      ["a/S_R1.fastq.gz"; "a/S_R2.fastq.gz"; "b/S_R1.fastq.gz"; "b/S_R2.fastq.gz"].
Proof.
  intros H. apply (f_equal (λ m, slot m "S" "R1")) in H.
  vm_compute in H. discriminate H.
Qed.

(** ** C6 *)

(** C6.  On the single input file [D_R1.fastq.gz] the mate-1 pattern of the
    first rule matches with the stem [D], no mate-2 file answers, and the
    returned table is the one record [D_R1] with [mate1 = D_R1.fastq.gz] and
    no [mate2], whatever the iteration order. *)
Theorem parse_fastq_pairs_unpaired_mate1 o :
  re_match_group1 rule_R1_R2.1 (basename "D_R1.fastq.gz")
  = Some "D"
  ∧ parse_fastq_pairs o ["D_R1.fastq.gz"]
    = {[ "D_R1" := {[ "R1" := "D_R1.fastq.gz" ]} ]}.
Proof.
  split; [reflexivity|].
  rewrite (parse_fastq_pairs_order o elements_order) by (vm_compute; reflexivity).
  vm_compute. reflexivity.
Qed.

(** ** C5 *)

Lemma string_length_append s t :
  String.length (s +:+ t) = String.length s + String.length t.
Proof. induction s as [|c s IH]; [done|]. rewrite append_cons. simpl. by rewrite IH. Qed.

Lemma match_items_rest items s r : match_items items s = Some r → at_dollar r = true.
Proof.
  revert s. induction items as [|[l|l] k IH]; intros s; simpl.
  - destruct (at_dollar s) eqn:Hs; [|done]. by intros [= <-].
  - destruct (strip_prefix l s); [apply IH|done].
  - destruct (strip_prefix l s) as [s'|]; [|apply IH].
    destruct (match_items k s') as [r'|] eqn:Hm; [|apply IH].
    intros [= <-]. by eapply IH.
Qed.

(** Past a match there is nothing left for [re.sub] to replace: stopping the
    scan there loses nothing. *)
Lemma re_sub_fastq_ext_rest s r :
  match_items fastq_ext s = Some r → re_sub_fastq_ext r = r.
Proof.
  intros Hr%match_items_rest. destruct r as [|c [|??]]; [done| |done].
  simpl in Hr. by apply Ascii.eqb_eq in Hr as ->.
Qed.

Lemma re_sub_fastq_ext_cons c s :
  re_sub_fastq_ext (String c s)
  = match match_items fastq_ext (String c s) with
    | Some r => r
    | None => String c (re_sub_fastq_ext s)
    end.
Proof. reflexivity. Qed.

(** The extension pattern does not match before the extension. *)
Lemma match_items_before_ext c x ext :
  ext ∈ fastq_extensions → match_items fastq_ext (String c (x +:+ ext)) = None.
Proof.
  intros Hext. destruct (match_items fastq_ext _) as [r|] eqn:Hm; [|done].
  apply match_items_expansions in Hm.
  assert (forallb (λ t, forallb (λ e, implb (is_suffix e t) (String.eqb e t))
                                fastq_extensions)
                  (expansions fastq_ext) = true) as Hchk by (vm_compute; reflexivity).
  rewrite forallb_forall in Hchk. apply list_elem_of_In, Hchk in Hm.
  rewrite forallb_forall in Hm. apply list_elem_of_In, Hm in Hext.
  rewrite (proj2 (is_suffix_true ext (String c (x +:+ ext)))) in Hext
    by (by exists (String c x)).
  apply String.eqb_eq, (f_equal String.length) in Hext.
  simpl in Hext. rewrite string_length_append in Hext. lia.
Qed.

(** The sample name of a single-end file: the basename less its extension. *)
Lemma re_sub_fastq_ext_strip n ext :
  ext ∈ fastq_extensions → re_sub_fastq_ext (n +:+ ext) = n.
Proof.
  intros Hext. induction n as [|c n IH].
  - rewrite append_nil_l. unfold fastq_extensions in Hext.
    repeat (apply elem_of_cons in Hext as [->|Hext]; [reflexivity|]).
    by apply elem_of_nil in Hext.
  - rewrite append_cons, re_sub_fastq_ext_cons, match_items_before_ext by done.
    by rewrite IH.
Qed.

(** A slot that is assigned holds one of the paths assigned to it. *)
Lemma slot_writes_written ws m n k :
  (∃ f, (n, k, f) ∈ ws) →
  ∃ g, (n, k, g) ∈ ws ∧ slot (foldl apply_write m ws) n k = Some g.
Proof.
  induction ws as [|[[n0 k0] f0] ws IH] using rev_ind.
  - intros [f Hf]. by apply elem_of_nil in Hf.
  - intros [f Hf]. rewrite foldl_snoc, slot_apply_write. simpl.
    destruct (decide (n = n0 ∧ k = k0)) as [[-> ->]|Hne].
    + exists f0. split; [|done]. apply elem_of_app. right. by left.
    + apply elem_of_app in Hf as [Hf|Hf].
      * destruct IH as (g & Hg & Hs); [by exists f|].
        exists g. split; [|done]. apply elem_of_app. by left.
      * apply list_elem_of_singleton in Hf as [= -> -> ->]. by destruct Hne.
Qed.

Lemma parse_fastq_pairs_singles o fastq_files :
  parse_fastq_pairs o fastq_files
  = foldl apply_write (run_rules o paired_patterns fastq_files).1
      (single_write <$> set_iter o (run_rules o paired_patterns fastq_files).2).
Proof. unfold parse_fastq_pairs. by rewrite foldl_fmap. Qed.

(** C5, as amended.  After all rules are applied every unclaimed file is
    assigned to the mate-1 slot of the record named by its basename less the
    fastq extension, and to nothing else: that slot ends holding an unclaimed
    file of that name, the file itself when no other unclaimed file has the
    name, and the record is then exactly [{mate1: file}] unless a pair was
    bound under the same name; the slots other than mate-1 stay as the rules
    left them.  The name is the basename less [.fastq.gz], [.fq.gz],
    [.fastq] or [.fq], case-sensitively, and [{"C.fastq.gz"}] gives the one
    record [C] with [mate1 = C.fastq.gz] and no [mate2]. *)
Theorem single_end_records o fastq_files :
  (∀ n ext, ext ∈ fastq_extensions → re_sub_fastq_ext (n +:+ ext) = n)
  ∧ re_sub_fastq_ext "C.FASTQ.GZ" = "C.FASTQ.GZ"
  ∧ (∀ f, f ∈ (run_rules o paired_patterns fastq_files).2 →
       ∃ g, g ∈ (run_rules o paired_patterns fastq_files).2
         ∧ re_sub_fastq_ext (basename g) = re_sub_fastq_ext (basename f)
         ∧ slot (parse_fastq_pairs o fastq_files)
             (re_sub_fastq_ext (basename f)) "R1" = Some g)
  ∧ (∀ f, f ∈ (run_rules o paired_patterns fastq_files).2 →
       (∀ g, g ∈ (run_rules o paired_patterns fastq_files).2 →
             re_sub_fastq_ext (basename g) = re_sub_fastq_ext (basename f) →
             g = f) →
       slot (parse_fastq_pairs o fastq_files)
         (re_sub_fastq_ext (basename f)) "R1" = Some f
       ∧ ((run_rules o paired_patterns fastq_files).1
            !! re_sub_fastq_ext (basename f) = None →
          parse_fastq_pairs o fastq_files !! re_sub_fastq_ext (basename f)
          = Some {[ "R1" := f ]}))
  ∧ (∀ n k, k ≠ "R1" →
       slot (parse_fastq_pairs o fastq_files) n k
       = slot (run_rules o paired_patterns fastq_files).1 n k)
  ∧ parse_fastq_pairs o ["C.fastq.gz"] = {[ "C" := {[ "R1" := "C.fastq.gz" ]} ]}.
Proof.
  assert (∀ n k, k ≠ "R1" →
       slot (parse_fastq_pairs o fastq_files) n k
       = slot (run_rules o paired_patterns fastq_files).1 n k) as Hother.
  { intros n k Hk. rewrite parse_fastq_pairs_singles.
    apply slot_writes_untouched.
    intros f (x & Heq & _)%list_elem_of_fmap. unfold single_write in Heq.
    by simplify_eq. }
  assert (∀ f, f ∈ (run_rules o paired_patterns fastq_files).2 →
       ∃ g, g ∈ (run_rules o paired_patterns fastq_files).2
         ∧ re_sub_fastq_ext (basename g) = re_sub_fastq_ext (basename f)
         ∧ slot (parse_fastq_pairs o fastq_files)
             (re_sub_fastq_ext (basename f)) "R1" = Some g) as Hbound.
  { intros f Hf. rewrite parse_fastq_pairs_singles.
    destruct (slot_writes_written
                (single_write <$> set_iter o (run_rules o paired_patterns fastq_files).2)
                (run_rules o paired_patterns fastq_files).1
                (re_sub_fastq_ext (basename f)) "R1") as (g & Hg & Hs).
    { exists f. apply (list_elem_of_fmap_2 single_write).
      by apply elem_of_set_iter. }
    apply list_elem_of_fmap in Hg as (x & Heq & Hx). unfold single_write in Heq.
    simplify_eq. apply elem_of_set_iter in Hx. by exists x. }
  split_and!; [apply re_sub_fastq_ext_strip|reflexivity|done| |done|].
  - intros f Hf Huniq. destruct (Hbound f Hf) as (g & Hg & Hname & Hs).
    rewrite (Huniq g Hg Hname) in Hs. split; [done|]. intros Hnone.
    assert (is_Some (parse_fastq_pairs o fastq_files
                       !! re_sub_fastq_ext (basename f))) as [reads Hreads].
    { unfold slot in Hs. destruct (_ !! re_sub_fastq_ext (basename f)); [by eexists|done]. }
    rewrite Hreads. f_equal. apply map_eq. intros k.
    rewrite <-(slot_lookup _ _ _ k Hreads).
    destruct (decide (k = "R1")) as [->|Hk].
    + by rewrite Hs, lookup_singleton_eq.
    + rewrite Hother by done. unfold slot. rewrite Hnone. simpl.
      by rewrite lookup_singleton_ne.
  - rewrite (parse_fastq_pairs_order o elements_order) by (vm_compute; reflexivity).
    vm_compute. reflexivity.
Qed.

Lemma single_end_records_witness :
  slot (parse_fastq_pairs elements_order ["A_R1.fq"; "A_R2.fq"; "C.fastq.gz"])
    (re_sub_fastq_ext (basename "C.fastq.gz")) "R1" = Some "C.fastq.gz".
Proof.
  apply (single_end_records elements_order ["A_R1.fq"; "A_R2.fq"; "C.fastq.gz"]).
  - apply elem_of_elements. vm_compute. by left.
  - intros g Hg%elem_of_elements. vm_compute in Hg.
    by apply list_elem_of_singleton in Hg as ->.
Defined.

(** C5 as stated fails: two unclaimed files with one basename, in two
    directories, are bound to the same record, and the table is left with
    no record whose mate-1 slot holds the first of them. *)
Lemma single_end_file_overwritten :
  ¬ (∀ f, f ∈ (run_rules elements_order paired_patterns
                 ["a/C.fastq.gz"; "b/C.fastq.gz"]).2 →
          parse_fastq_pairs elements_order ["a/C.fastq.gz"; "b/C.fastq.gz"]
            !! re_sub_fastq_ext (basename f)
          = Some {[ "R1" := f ]}).
Proof.
  intros H. specialize (H "a/C.fastq.gz").
  apply (f_equal (λ reads, reads ≫= (.!! "R1"))) in H.
  - vm_compute in H. discriminate H.
  - apply elem_of_elements. vm_compute. by left.
Qed.

(** ** C4 *)

Lemma rules_exclusive_lookup rules i j r r' :
  rules_exclusive rules = true → i < j →
  rules !! i = Some r → rules !! j = Some r' → rule_apart r r' = true.
Proof.
  revert i j. induction rules as [|r0 rules IH]; intros i j; simpl; [done|].
  rewrite !andb_true_iff. intros [[_ Hall] Hex] Hlt Hi Hj.
  destruct i as [|i], j as [|j]; simpl in *; [lia| |lia|].
  - injection Hi as ->. rewrite forallb_forall in Hall.
    by apply Hall, list_elem_of_In, list_elem_of_lookup_2 with j.
  - apply (IH i j); [done|lia|done..].
Qed.

Lemma rule_apart_matches r r' f :
  rule_apart r r' = true → matches_rule r f → matches_rule r' f → False.
Proof.
  unfold rule_apart, matches_rule. rewrite !andb_true_iff.
  intros [[[H11 H12] H21] H22] [[g Hg]|[g Hg]] [[g' Hg']|[g' Hg']];
    eauto using apart_no_double_match.
Qed.

(** No file matches the patterns of two rules of the list. *)
Lemma paired_patterns_one_rule i j r r' f :
  paired_patterns !! i = Some r → paired_patterns !! j = Some r' →
  matches_rule r f → matches_rule r' f → i = j.
Proof.
  intros Hi Hj Hr Hr'. destruct (Nat.lt_total i j) as [Hlt|[->|Hlt]]; [|done|].
  - destruct (rule_apart_matches r r' f); [|done..].
    by apply (rules_exclusive_lookup paired_patterns i j);
      [apply paired_patterns_exclusive|..].
  - destruct (rule_apart_matches r' r f); [|done..].
    by apply (rules_exclusive_lookup paired_patterns j i);
      [apply paired_patterns_exclusive|..].
Qed.

Lemma run_rules_app o pre post fastq_files :
  run_rules o (pre ++ post) fastq_files
  = foldl (rule_pass o) (run_rules o pre fastq_files) post.
Proof. unfold run_rules. apply foldl_app. Qed.

(** The files a pass binds are in its working set and in no later one. *)
Lemma bound_files_claimed o pre r post fastq_files f :
  f ∈ bound_files (pass_bindings r
         (set_iter o (run_rules o pre fastq_files).2)
         (set_iter o (run_rules o pre fastq_files).2)) →
  f ∈ (run_rules o pre fastq_files).2
  ∧ f ∉ (run_rules o (pre ++ r :: post) fastq_files).2.
Proof.
  intros Hb. split.
  - apply elem_of_bound_files in Hb as (n & f1 & f2 & Hb & Hf).
    apply elem_of_pass_bindings in Hb as (Hin & _ & [Hin2 _]%find_mate2_Some).
    destruct Hf as [->| ->]; by eapply elem_of_set_iter.
  - rewrite run_rules_app. simpl. intros Hf%foldl_rule_pass_remaining.
    rewrite rule_pass_bindings in Hf. simpl in Hf. set_solver.
Qed.

(** The pass of a rule binds every mate-1 file of its working set whose stem
    a mate-2 file of the working set shares. *)
Lemma rule_pass_claims o st r n f1 f2 :
  f1 ∈ st.2 → f2 ∈ st.2 →
  re_match_group1 r.1 (basename f1) = Some n →
  re_match_group1 r.2 (basename f2) = Some n →
  (f1 ∉ (rule_pass o st r).2)
  ∧ slot (rule_pass o st r).1 n "R1" ≠ None
  ∧ slot (rule_pass o st r).1 n "R2" ≠ None.
Proof.
  intros Hf1 Hf2 Hm1 Hm2. rewrite rule_pass_bindings. simpl.
  destruct (find_mate2_is_Some r.2 n (set_iter o st.2) f2) as [f2' Hf];
    [by apply elem_of_set_iter|done|].
  assert ((n, f1, f2') ∈ pass_bindings r (set_iter o st.2) (set_iter o st.2))
    as Hb.
  { apply elem_of_pass_bindings. split_and!; [by apply elem_of_set_iter|done..]. }
  split_and!.
  - intros [_ Hnb]%elem_of_difference. apply Hnb, elem_of_bound_files.
    exists n, f1, f2'. auto.
  - apply not_eq_None_Some, slot_writes_is_Some. right. exists f1.
    apply elem_of_binding_writes. exists f1, f2'. auto.
  - apply not_eq_None_Some, slot_writes_is_Some. right. exists f2'.
    apply elem_of_binding_writes. exists f1, f2'. auto.
Qed.

(** C4.  The rules are applied in the order [_R1/_R2] (with optional
    [_001]), [_1/_2], [.R1/.R2], [.1/.2].  No file matches the patterns of
    two rules, so the rule that claims a file is the first, and only, rule
    matching it.  The files bound by the pass of a rule belong to the working
    set that the earlier rules left and to no working set of a later rule, nor
    to the single-end loop.  Two files that the first rule pairs under a stem
    are bound by its pass alone, whatever [_1]/[_2] their names contain: the
    mate-1 file leaves the working set and the record of the stem gets both
    slots; [S_1_R1.fastq.gz] and [S_1_R2.fastq.gz] give the one record [S_1],
    which the [_1/_2] rule does not match. *)
Theorem rule_priority o fastq_files :
  parse_fastq_pairs o fastq_files
  = foldl single_step
      (run_rules o [rule_R1_R2; rule_1_2; rule_dot_R1_R2; rule_dot_1_2] fastq_files).1
      (set_iter o
         (run_rules o [rule_R1_R2; rule_1_2; rule_dot_R1_R2; rule_dot_1_2]
            fastq_files).2)
  ∧ (∀ i j r r' f,
       paired_patterns !! i = Some r → paired_patterns !! j = Some r' →
       matches_rule r f → matches_rule r' f → i = j)
  ∧ (∀ pre r post f,
       f ∈ bound_files (pass_bindings r
              (set_iter o (run_rules o pre fastq_files).2)
              (set_iter o (run_rules o pre fastq_files).2)) →
       f ∈ (run_rules o pre fastq_files).2
       ∧ f ∉ (run_rules o (pre ++ r :: post) fastq_files).2)
  ∧ (∀ n f1 f2,
       f1 ∈ fastq_files → f2 ∈ fastq_files →
       re_match_group1 rule_R1_R2.1 (basename f1) = Some n →
       re_match_group1 rule_R1_R2.2 (basename f2) = Some n →
       (f1 ∉ (run_rules o [rule_R1_R2] fastq_files).2)
       ∧ slot (run_rules o [rule_R1_R2] fastq_files).1 n "R1" ≠ None
       ∧ slot (run_rules o [rule_R1_R2] fastq_files).1 n "R2" ≠ None)
  ∧ re_match_group1 rule_R1_R2.1 (basename "S_1_R1.fastq.gz") = Some "S_1"
  ∧ re_match_group1 rule_1_2.1 (basename "S_1_R1.fastq.gz") = None
  ∧ parse_fastq_pairs o ["S_1_R1.fastq.gz"; "S_1_R2.fastq.gz"]
    = {[ "S_1" := {[ "R1" := "S_1_R1.fastq.gz"; "R2" := "S_1_R2.fastq.gz" ]} ]}.
Proof.
  split_and!; [reflexivity|apply paired_patterns_one_rule| | |reflexivity..|].
  - intros pre r post f. apply bound_files_claimed.
  - intros n f1 f2 Hf1 Hf2. apply rule_pass_claims; simpl;
      by apply elem_of_list_to_set.
  - rewrite (parse_fastq_pairs_order o elements_order) by (vm_compute; reflexivity).
    vm_compute. reflexivity.
Qed.

Lemma rule_priority_witness :
  "S_1_R1.fastq.gz"
  ∉ (run_rules elements_order [rule_R1_R2]
       ["S_1_R1.fastq.gz"; "S_1_R2.fastq.gz"]).2.
Proof.
  apply (rule_priority elements_order ["S_1_R1.fastq.gz"; "S_1_R2.fastq.gz"])
    with "S_1" "S_1_R2.fastq.gz".
  - by left.
  - right. by left.
  - reflexivity.
  - reflexivity.
Defined.

(** ** C7 *)







(** What the single-end loop makes of a file of its working set: the mate-1
    slot of the record named by the basename less the extension holds a file of
    the working set with that name, and the record holds nothing else unless
    the rules left a record of that name. *)
Lemma unclaimed_record o fastq_files f :
  f ∈ (run_rules o paired_patterns fastq_files).2 →
  ∃ reads g,
    parse_fastq_pairs o fastq_files !! re_sub_fastq_ext (basename f) = Some reads
    ∧ reads !! "R1" = Some g
    ∧ g ∈ (run_rules o paired_patterns fastq_files).2
    ∧ re_sub_fastq_ext (basename g) = re_sub_fastq_ext (basename f)
    ∧ ((run_rules o paired_patterns fastq_files).1 !! re_sub_fastq_ext (basename f)
       = None → reads = {[ "R1" := g ]}).
Proof.
  intros Hf.
  destruct (slot_writes_written
              (single_write <$> set_iter o (run_rules o paired_patterns fastq_files).2)
              (run_rules o paired_patterns fastq_files).1
              (re_sub_fastq_ext (basename f)) "R1") as (g & Hg & Hs).
  { exists f. apply (list_elem_of_fmap_2 single_write). by apply elem_of_set_iter. }
  rewrite <-parse_fastq_pairs_singles in Hs.
  apply list_elem_of_fmap in Hg as (x & Heq & Hx). unfold single_write in Heq.
  simplify_eq. apply elem_of_set_iter in Hx.
  destruct (parse_fastq_pairs o fastq_files !! re_sub_fastq_ext (basename f))
    as [reads|] eqn:Hreads; [|by unfold slot in Hs; rewrite Hreads in Hs].
  exists reads, x. rewrite (slot_lookup _ _ _ "R1" Hreads) in Hs.
  split_and!; [done..|]. intros Hnone. apply map_eq. intros k.
  destruct (decide (k = "R1")) as [->|Hk]; [by rewrite lookup_singleton_eq|].
  rewrite lookup_singleton_ne by done.
  rewrite <-(slot_lookup _ _ _ k Hreads), parse_fastq_pairs_singles.
  rewrite slot_writes_untouched.
  - unfold slot. by rewrite Hnone.
  - intros g (y & Heq & _)%list_elem_of_fmap. unfold single_write in Heq.
    by simplify_eq.
Qed.




(** ** C9 *)

Global Instance item_le_trans : Transitive item_le.
Proof. intros a b c. unfold item_le. apply transitivity. Qed.

Global Instance item_le_total : Total item_le.
Proof. intros a b. unfold item_le. apply total, _. Qed.

Lemma StronglySorted_item_lt l :
  StronglySorted item_le l → NoDup l.*1 → StronglySorted item_lt l.
Proof.
  induction 1 as [|a l Hl IH Ha]; intros Hnd; [constructor|].
  simpl in Hnd. apply NoDup_cons in Hnd as [Hnotin Hnd].
  constructor; [by apply IH|].
  rewrite Forall_forall in Ha |- *. intros x Hx. split; [by apply Ha|].
  intros Heq. apply Hnotin. rewrite Heq. by apply list_elem_of_fmap_2.
Qed.

Lemma sorted_items_Permutation samples : sorted_items samples ≡ₚ map_to_list samples.
Proof. apply merge_sort_Permutation. Qed.

Lemma sorted_items_sorted samples : StronglySorted item_lt (sorted_items samples).
Proof.
  apply StronglySorted_item_lt.
  - apply StronglySorted_merge_sort; apply _.
  - rewrite sorted_items_Permutation. apply NoDup_fst_map_to_list.
Qed.

(** C9.  [write_samplesheet] writes the header line
    [sample,fastq_1,fastq_2,strandedness] and then one row for each sample
    of the table, the rows in strictly increasing order of sample name; a row
    is [name,fastq_1,fastq_2,strandedness] with the one strandedness label
    given to the call, and [fastq_2] is empty for a record without mate-2
    slot. *)
Theorem write_samplesheet_rows samples strandedness s3_prefix :
  write_samplesheet samples strandedness s3_prefix
  = ("sample,fastq_1,fastq_2,strandedness" +:+ String newline "")
    :: map (row strandedness s3_prefix) (sorted_items samples)
  ∧ sorted_items samples ≡ₚ map_to_list samples
  ∧ StronglySorted item_lt (sorted_items samples)
  ∧ (∀ item,
       row strandedness s3_prefix item
       = item.1 +:+ "," +:+ (row_fields s3_prefix item.2).1
         +:+ "," +:+ (row_fields s3_prefix item.2).2
         +:+ "," +:+ strandedness +:+ String newline "")
  ∧ (∀ reads, (row_fields s3_prefix (delete "R2" reads)).2 = "")
  ∧ (∀ reads,
       row_fields None reads
       = (default "" (reads !! "R1"), default "" (reads !! "R2")))
  ∧ write_samplesheet
      {[ "B" := {[ "R1" := "B_1.fq"; "R2" := "B_2.fq" ]};
         "A" := {[ "R1" := "A.fq" ]} ]} "auto" None
    = [ "sample,fastq_1,fastq_2,strandedness" +:+ String newline "";
        "A,A.fq,,auto" +:+ String newline "";
        "B,B_1.fq,B_2.fq,auto" +:+ String newline "" ].
Proof.
  split_and!; [reflexivity|apply sorted_items_Permutation|apply sorted_items_sorted
              |reflexivity| |reflexivity|vm_compute; reflexivity].
  intros reads. unfold row_fields. rewrite lookup_delete_eq. simpl.
  by destruct s3_prefix.
Qed.

(** ** C10 *)

Lemma replace_go_0_cons old new c s :
  replace_go old new 0 (String c s)
  = if starts_with old (String c s)
    then new +:+ replace_go old new (String.length old - 1) s
    else String c (replace_go old new 0 s).
Proof. reflexivity. Qed.

Lemma replace_go_skip old new u b :
  replace_go old new (String.length u) (u +:+ b) = replace_go old new 0 b.
Proof. induction u as [|c u IH]; [done|]. by rewrite append_cons. Qed.

Lemma starts_with_append old b : starts_with old (old +:+ b) = true.
Proof.
  unfold starts_with.
  by rewrite (proj2 (strip_prefix_Some old (old +:+ b) b)).
Qed.

(** [replace] rewrites the first occurrence and goes on after it. *)
Lemma replace_go_first old new a b :
  old ≠ "" →
  first_occurrence old (a +:+ old +:+ b) = Some (String.length a) →
  replace_go old new 0 (a +:+ old +:+ b)
  = a +:+ new +:+ replace_go old new 0 b.
Proof.
  intros Hold. induction a as [|c a IH]; intros Hfirst.
  - rewrite !append_nil_l. destruct old as [|c old]; [done|].
    rewrite append_cons, replace_go_0_cons, <-append_cons, starts_with_append.
    simpl. by rewrite Nat.sub_0_r, replace_go_skip.
  - rewrite !append_cons, replace_go_0_cons. rewrite append_cons in Hfirst.
    simpl in Hfirst.
    destruct (starts_with old (String c (a +:+ old +:+ b))); [done|].
    rewrite IH; [done|].
    destruct (first_occurrence old (a +:+ old +:+ b)); simpl in *; congruence.
Qed.

(** [replace] leaves a string without occurrence as it is. *)
Lemma replace_go_none old new s :
  first_occurrence old s = None → replace_go old new 0 s = s.
Proof.
  induction s as [|c s IH]; [done|]. intros Hnone.
  rewrite replace_go_0_cons. simpl in Hnone.
  destruct (starts_with old (String c s)); [done|].
  rewrite IH; [done|]. by destruct (first_occurrence old s).
Qed.

Lemma str_replace_nonempty old new s :
  old ≠ "" → str_replace old new s = replace_go old new 0 s.
Proof. by destruct old. Qed.

(** C10.  With an S3 prefix mapping, [fastq_1] is the mate-1 path with every
    occurrence of the local prefix replaced, wherever it stands in the path,
    and [fastq_2] is the mate-2 path treated the same, unless it is empty:
    an empty [fastq_2] stays empty.  [str_replace] is Python's [str.replace]:
    a string in which [old] does not occur is unchanged, and otherwise the
    first occurrence of [old] is replaced by [new] and the rest of the string
    is treated the same way; an occurrence in the middle of a path is
    rewritten like a leading one. *)
Theorem s3_prefix_substitution p reads :
  row_fields (Some p) reads
  = (str_replace (local p) (s3 p) (default "" (reads !! "R1")),
     if bool_decide (default "" (reads !! "R2") = "") then ""
     else str_replace (local p) (s3 p) (default "" (reads !! "R2")))
  ∧ (∀ old new a b,
       old ≠ "" →
       first_occurrence old (a +:+ old +:+ b) = Some (String.length a) →
       str_replace old new (a +:+ old +:+ b)
       = a +:+ new +:+ str_replace old new b)
  ∧ (∀ old new s, first_occurrence old s = None → str_replace old new s = s)
  ∧ str_replace "/data" "s3://bkt" "/mnt/data/run/data/x.fq"
    = "/mnts3://bkt/runs3://bkt/x.fq"
  ∧ str_replace "" "s3://bkt" "" = "s3://bkt"
  ∧ row_fields (Some {| local := ""; s3 := "s3://bkt" |}) {[ "R1" := "a.fq" ]}
    = ("s3://bkta" +:+ "s3://bkt." +:+ "s3://bktf" +:+ "s3://bktq" +:+ "s3://bkt", "").
Proof.
  split_and!; [| | |reflexivity..].
  - unfold row_fields. by case_bool_decide as Hr2; [rewrite Hr2|].
  - intros old new a b Hold Hfirst.
    rewrite !str_replace_nonempty by done. by apply replace_go_first.
  - intros old new s Hnone. destruct old as [|c old]; [by destruct s|].
    by apply replace_go_none.
Qed.

Lemma s3_prefix_substitution_witness :
  str_replace "/data" "s3://bkt" ("/mnt" +:+ "/data" +:+ "/x.fq")
  = "/mnt" +:+ "s3://bkt" +:+ str_replace "/data" "s3://bkt" "/x.fq".
Proof.
  apply (s3_prefix_substitution {| local := "/data"; s3 := "s3://bkt" |} ∅).
  - discriminate.
  - reflexivity.
Defined.

(** * Further properties *)

(** ** [find_fastq_files] *)

Lemma endswith_true s t : endswith s t = true ↔ ∃ x, s = x +:+ t.
Proof. apply is_suffix_true. Qed.

(** A joined path ends with its second component. *)
Lemma path_join_tail a b : ∃ x, path_join a b = x +:+ b.
Proof.
  unfold path_join. destruct (starts_with "/" b); [by exists ""|].
  destruct (bool_decide (a = "") || endswith a "/"); [by exists a|].
  exists (a +:+ "/"). by rewrite append_assoc.
Qed.

Lemma endswith_path_join a b ext :
  endswith b ext = true → endswith (path_join a b) ext = true.
Proof.
  rewrite !endswith_true. intros [y ->]. destruct (path_join_tail a (y +:+ ext)) as [x ->].
  exists (x +:+ y). by rewrite append_assoc.
Qed.

Lemma has_fastq_extension_true file :
  has_fastq_extension file = true
  ↔ ∃ ext, ext ∈ fastq_extensions ∧ endswith file ext = true.
Proof.
  unfold has_fastq_extension. rewrite existsb_exists.
  by setoid_rewrite list_elem_of_In.
Qed.

Lemma elem_of_find_fastq_files walk pattern p :
  p ∈ find_fastq_files walk pattern ↔
  ∃ root dirs files file,
    (root, dirs, files) ∈ walk ∧ file ∈ files
    ∧ has_fastq_extension file = true ∧ pattern_accepts pattern file = true
    ∧ p = path_join root file.
Proof.
  unfold find_fastq_files. rewrite merge_sort_Permutation, list_elem_of_bind. split.
  - intros ([[root dirs] files] & Hp & Hentry). simpl in Hp.
    apply list_elem_of_fmap in Hp as (file & -> & Hfile).
    apply list_elem_of_In, filter_In in Hfile as [Hfile Hok].
    apply andb_true_iff in Hok as [Hext Hpat].
    exists root, dirs, files, file. by rewrite list_elem_of_In.
  - intros (root & dirs & files & file & Hentry & Hfile & Hext & Hpat & ->).
    exists (root, dirs, files). split; [|done]. simpl.
    apply list_elem_of_fmap. exists file. split; [done|].
    apply list_elem_of_In, filter_In. rewrite Hext, Hpat.
    by rewrite <-list_elem_of_In.
Qed.

(** X1.  [find_fastq_files] returns its paths in increasing order; a path is
    returned exactly when it is the join of a directory of the walk with one
    of its files whose name ends with [.fastq.gz], [.fq.gz], [.fastq] or
    [.fq] and which the pattern, if any, accepts; every returned path ends
    with one of the four extensions.  The test of the extension is
    case-sensitive and looks at the end of the name only. *)
Theorem find_fastq_files_sorted walk pattern :
  StronglySorted String.le (find_fastq_files walk pattern)
  ∧ (∀ p, p ∈ find_fastq_files walk pattern ↔
          ∃ root dirs files file,
            (root, dirs, files) ∈ walk ∧ file ∈ files
            ∧ has_fastq_extension file = true ∧ pattern_accepts pattern file = true
            ∧ p = path_join root file)
  ∧ Forall (λ p, ∃ ext, ext ∈ fastq_extensions ∧ endswith p ext = true)
           (find_fastq_files walk pattern)
  ∧ has_fastq_extension "A.FASTQ" = false
  ∧ has_fastq_extension "A.fastq.gz.md5" = false.
Proof.
  split_and!; [|apply elem_of_find_fastq_files| |reflexivity..].
  - apply StronglySorted_merge_sort; apply _.
  - apply Forall_forall. intros p Hp.
    apply elem_of_find_fastq_files
      in Hp as (root & dirs & files & file & _ & _ & Hext & _ & ->).
    apply has_fastq_extension_true in Hext as (ext & Hin & Hext).
    exists ext. split; [done|]. by apply endswith_path_join.
Qed.

Lemma after_last_slash_no_slash cur p :
  count_char slash p = 0 → after_last_slash cur p = cur.
Proof.
  revert cur. induction p as [|c p IH]; intros cur; simpl; [done|].
  destruct (Ascii.eqb c slash); [done|]. apply IH.
Qed.

Lemma after_last_slash_append cur a b :
  count_char slash b = 0 → after_last_slash cur (a +:+ "/" +:+ b) = b.
Proof.
  intros Hb. revert cur. induction a as [|c a IH]; intros cur.
  - rewrite append_nil_l. simpl. by apply after_last_slash_no_slash.
  - rewrite append_cons. simpl. destruct (Ascii.eqb c slash); apply IH.
Qed.

(** The basename of a joined path is the file name. *)
Lemma basename_path_join a b : count_char slash b = 0 → basename (path_join a b) = b.
Proof.
  intros Hb. unfold path_join, basename.
  assert (starts_with "/" b = false) as ->.
  { unfold starts_with. destruct (strip_prefix "/" b) as [r|] eqn:Hr; [|done].
    apply strip_prefix_Some in Hr as ->. by rewrite append_cons in Hb. }
  destruct (bool_decide (a = "") || endswith a "/") eqn:Ha.
  - apply orb_true_iff in Ha as [->%bool_decide_eq_true|[x ->]%endswith_true].
    + rewrite append_nil_l. by apply after_last_slash_no_slash.
    + rewrite append_assoc. by apply after_last_slash_append.
  - by apply after_last_slash_append.
Qed.

(** X2.  The file names of a walk hold no slash.  The basename of a path
    that [find_fastq_files] returns is then the name of the file in its
    directory, and the sample name [parse_fastq_pairs] gives the file when
    it is single-end is that file name less its extension. *)
Theorem find_fastq_files_sample_name walk pattern p :
  (∀ entry file, entry ∈ walk → file ∈ entry.2 → count_char slash file = 0) →
  p ∈ find_fastq_files walk pattern →
  ∃ entry n ext,
    entry ∈ walk ∧ n +:+ ext ∈ entry.2 ∧ ext ∈ fastq_extensions
    ∧ p = path_join entry.1.1 (n +:+ ext)
    ∧ basename p = n +:+ ext
    ∧ re_sub_fastq_ext (basename p) = n.
Proof.
  intros Hslash (root & dirs & files & file & Hentry & Hfile & Hext & _ & ->)
    %elem_of_find_fastq_files.
  apply has_fastq_extension_true in Hext as (ext & Hin & [n ->]%endswith_true).
  exists (root, dirs, files), n, ext.
  rewrite basename_path_join by (by apply (Hslash (root, dirs, files))).
  split_and!; [done..|]. by apply re_sub_fastq_ext_strip.
Qed.

Lemma find_fastq_files_sample_name_witness :
  ∃ entry n ext,
    entry ∈ [("data", ["raw"], ["notes.txt"]); ("data/raw", [], ["C.fastq.gz"])]
    ∧ n +:+ ext ∈ entry.2 ∧ ext ∈ fastq_extensions
    ∧ "data/raw/C.fastq.gz" = path_join entry.1.1 (n +:+ ext)
    ∧ basename "data/raw/C.fastq.gz" = n +:+ ext
    ∧ re_sub_fastq_ext (basename "data/raw/C.fastq.gz") = n.
Proof.
  apply (find_fastq_files_sample_name
           [("data", ["raw"], ["notes.txt"]); ("data/raw", [], ["C.fastq.gz"])] None).
  - intros entry file Hentry Hfile.
    repeat (apply elem_of_cons in Hentry as [->|Hentry];
            [simpl in Hfile; apply list_elem_of_singleton in Hfile as ->; reflexivity|]).
    by apply elem_of_nil in Hentry.
  - vm_compute. by left.
Defined.


(** ** A mate without its counterpart *)

(** A file that no pass binds stays in the working set. *)
Lemma never_bound_remaining o rules st f :
  f ∈ st.2 →
  (∀ r X, r ∈ rules → X ⊆ st.2 →
          f ∉ bound_files (pass_bindings r (set_iter o X) (set_iter o X))) →
  f ∈ (foldl (rule_pass o) st rules).2.
Proof.
  revert st. induction rules as [|r rules IH]; intros st Hf Hno; simpl; [done|].
  apply IH.
  - rewrite rule_pass_bindings. simpl. apply elem_of_difference. split; [done|].
    apply Hno; [by left|done].
  - intros r' X Hr' HX. apply Hno; [by right|].
    intros x Hx%HX. by eapply rule_pass_remaining.
Qed.

Lemma paired_patterns_apart r :
  r ∈ paired_patterns → tails_apart r.1 r.2 = true.
Proof.
  unfold paired_patterns. intros Hr.
  repeat (apply elem_of_cons in Hr as [->|Hr]; [vm_compute; reflexivity|]).
  by apply elem_of_nil in Hr.
Qed.

Lemma paired_patterns_same_rule r r' f :
  r ∈ paired_patterns → r' ∈ paired_patterns →
  matches_rule r f → matches_rule r' f → r = r'.
Proof.
  intros [i Hi]%list_elem_of_lookup_1 [j Hj]%list_elem_of_lookup_1 Hr Hr'.
  assert (i = j) as -> by (by eapply paired_patterns_one_rule).
  congruence.
Qed.

Lemma lone_mate_unbound r r' n f fastq_files order l :
  r ∈ paired_patterns → r' ∈ paired_patterns →
  (∀ x, x ∈ order → x ∈ fastq_files) → (∀ x, x ∈ l → x ∈ fastq_files) →
  lone_mate r n f fastq_files →
  f ∉ bound_files (pass_bindings r' order l).
Proof.
  intros Hr Hr' Horder Hl Hlone Hb.
  assert (matches_rule r f) as Hmr.
  { destruct Hlone as [[Hm _]|[Hm _]]; [left|right]; by rewrite Hm. }
  assert (r = r') as <-.
  { apply (paired_patterns_same_rule r r' f); [done..|].
    by apply bound_file_matches in Hb. }
  pose proof (paired_patterns_apart r Hr) as Hap.
  apply elem_of_bound_files in Hb as (n' & f1 & f2 & Hb & Hf).
  apply elem_of_pass_bindings in Hb as (Hin & Hm1 & [Hin2 Hm2]%find_mate2_Some).
  destruct Hlone as [[Hm Hnone]|[Hm Hnone]], Hf as [->| ->].
  - apply (Hnone f2); [by apply Horder|congruence].
  - by destruct (apart_no_double_match _ _ _ _ _ Hap Hm Hm2).
  - by destruct (apart_no_double_match _ _ _ _ _ Hap Hm1 Hm).
  - apply (Hnone f1); [by apply Hl|congruence].
Qed.

(** X3.  A file whose basename matches the mate-1 pattern of a rule while no
    input file matches the mate-2 pattern with the same stem, or the mate-2
    pattern while no input file matches the mate-1 pattern with that stem,
    is claimed by no rule and reaches the single-end loop: the mate-1 slot of
    the record named by its basename less the extension holds an unclaimed
    file of that name, and holds the file itself when no other input file has
    that name.  A mate-2 file alone is thus listed as the [fastq_1] of a
    sample named with its [_R2]. *)
Theorem lone_mate_single_end o fastq_files r n f :
  r ∈ paired_patterns → f ∈ fastq_files →
  lone_mate r n f fastq_files →
  f ∈ (run_rules o paired_patterns fastq_files).2
  ∧ (∃ g, g ∈ (run_rules o paired_patterns fastq_files).2
          ∧ re_sub_fastq_ext (basename g) = re_sub_fastq_ext (basename f)
          ∧ slot (parse_fastq_pairs o fastq_files)
                 (re_sub_fastq_ext (basename f)) "R1" = Some g)
  ∧ ((∀ g, g ∈ fastq_files →
           re_sub_fastq_ext (basename g) = re_sub_fastq_ext (basename f) → g = f) →
     slot (parse_fastq_pairs o fastq_files) (re_sub_fastq_ext (basename f)) "R1"
     = Some f).
Proof.
  intros Hr Hf Hlone.
  assert (f ∈ (run_rules o paired_patterns fastq_files).2) as Hrem.
  { apply never_bound_remaining; [by apply elem_of_list_to_set|].
    intros r' X Hr' HX.
    apply (lone_mate_unbound r r' n f fastq_files); [done..| | |done];
      intros x Hx%elem_of_set_iter%HX; by apply elem_of_list_to_set in Hx. }
  destruct (unclaimed_record o fastq_files f Hrem)
    as (reads & g & Hreads & Hr1 & Hg & Hname & _).
  assert (slot (parse_fastq_pairs o fastq_files)
               (re_sub_fastq_ext (basename f)) "R1" = Some g) as Hs
    by (by rewrite (slot_lookup _ _ _ "R1" Hreads)).
  split_and!; [done|by exists g|].
  intros Huniq. rewrite Hs. f_equal. apply Huniq; [|done].
  apply foldl_rule_pass_remaining in Hg. by apply elem_of_list_to_set in Hg.
Qed.

Lemma lone_mate_single_end_witness :
  slot (parse_fastq_pairs elements_order ["A_1.fq"; "A_2.fq"; "D_R2.fastq.gz"])
       (re_sub_fastq_ext (basename "D_R2.fastq.gz")) "R1"
  = Some "D_R2.fastq.gz".
Proof.
  apply (lone_mate_single_end elements_order
           ["A_1.fq"; "A_2.fq"; "D_R2.fastq.gz"] rule_R1_R2 "D").
  - by left.
  - right. right. by left.
  - right. split; [reflexivity|]. intros f1 Hf1.
    repeat (apply elem_of_cons in Hf1 as [->|Hf1]; [vm_compute; discriminate|]).
    by apply elem_of_nil in Hf1.
  - intros g Hg.
    repeat (apply elem_of_cons in Hg as [->|Hg]; [vm_compute; by intros [=]|]).
    by apply elem_of_nil in Hg.
Defined.


(** ** The records of a run and the counts of the report *)

Lemma rules_writes_keys o rules rem n k f :
  (n, k, f) ∈ rules_writes o rules rem → k = "R1" ∨ k = "R2".
Proof.
  revert rem. induction rules as [|r rules IH]; intros rem; simpl.
  - intros (x & Heq & _)%list_elem_of_fmap. unfold single_write in Heq.
    left. by simplify_eq.
  - intros [Hw|Hw]%elem_of_app; [|by eapply IH].
    apply elem_of_binding_writes in Hw as (f1 & f2 & _ & [[-> _]|[-> _]]); auto.
Qed.

(** A record holds a mate-1 path, perhaps a mate-2 path, and nothing else. *)
Lemma parse_fastq_pairs_record o fastq_files n reads :
  parse_fastq_pairs o fastq_files !! n = Some reads →
  ∃ f1, reads = {[ "R1" := f1 ]} ∨ ∃ f2, reads = {[ "R1" := f1; "R2" := f2 ]}.
Proof.
  intros Hn. destruct (has_mate1_parse_fastq_pairs o fastq_files n reads Hn) as [f1 Hf1].
  assert (∀ k, k ≠ "R1" → k ≠ "R2" → reads !! k = None) as Hother.
  { intros k H1 H2. destruct (reads !! k) as [f|] eqn:Hk; [|done].
    rewrite <-(slot_lookup _ _ _ k Hn) in Hk.
    apply parse_fastq_pairs_sound in Hk as [Hw _].
    apply rules_writes_keys in Hw as [?|?]; congruence. }
  exists f1. destruct (reads !! "R2") as [f2|] eqn:Hf2; [right; exists f2|left];
    apply map_eq; intros k.
  - destruct (decide (k = "R1")) as [->|H1]; [by rewrite lookup_insert_eq|].
    rewrite lookup_insert_ne by done.
    destruct (decide (k = "R2")) as [->|H2]; [by rewrite lookup_singleton_eq|].
    rewrite lookup_singleton_ne by done. by apply Hother.
  - destruct (decide (k = "R1")) as [->|H1]; [by rewrite lookup_singleton_eq|].
    rewrite lookup_singleton_ne by done.
    destruct (decide (k = "R2")) as [->|H2]; [done|]. by apply Hother.
Qed.

Lemma record_paths (reads : gmap string string) f1 :
  reads = {[ "R1" := f1 ]} ∨ (∃ f2, reads = {[ "R1" := f1; "R2" := f2 ]}) →
  length (map_to_list reads)
  = S (if bool_decide (is_Some (reads !! "R2")) then 1 else 0).
Proof.
  rewrite length_map_to_list. intros [->|[f2 ->]].
  - by rewrite map_size_singleton.
  - rewrite map_size_insert_None, map_size_singleton by done.
    rewrite bool_decide_eq_true_2; [done|]. by eexists.
Qed.

Lemma paths_count (l : list (string * gmap string string)) :
  Forall (λ item, ∃ f1, item.2 = {[ "R1" := f1 ]}
                        ∨ ∃ f2, item.2 = {[ "R1" := f1; "R2" := f2 ]}) l →
  length (l ≫= λ item, (map_to_list item.2).*2)
  = length l
    + length (List.filter (λ reads : gmap string string,
                             bool_decide (is_Some (reads !! "R2"))) l.*2).
Proof.
  induction 1 as [|[n reads] l [f1 Hshape] _ IH]; [done|].
  simpl in Hshape.
  rewrite bind_cons, length_app, length_fmap, IH, fmap_cons.
  cbn [List.filter snd length]. rewrite (record_paths reads f1 Hshape).
  destruct (bool_decide (is_Some (reads !! "R2"))); cbn [length]; lia.
Qed.

Lemma paired_count_le samples : paired_count samples ≤ size samples.
Proof.
  unfold paired_count. rewrite <-length_map_to_list, <-(length_fmap snd).
  induction ((map_to_list samples).*2) as [|reads l IH]; simpl; [done|].
  destruct (bool_decide _); simpl; lia.
Qed.

Lemma slot_values_count o fastq_files :
  length (slot_values (parse_fastq_pairs o fastq_files))
  = size (parse_fastq_pairs o fastq_files)
    + paired_count (parse_fastq_pairs o fastq_files).
Proof.
  unfold slot_values, paired_count. rewrite paths_count, length_map_to_list; [done|].
  apply Forall_forall. intros [n reads] Hin%elem_of_map_to_list.
  by eapply parse_fastq_pairs_record.
Qed.

Lemma slot_values_le o fastq_files :
  length (slot_values (parse_fastq_pairs o fastq_files)) ≤ length fastq_files.
Proof.
  apply submseteq_length, NoDup_submseteq.
  - apply NoDup_slot_values, parse_fastq_pairs_injective.
  - intros f (n & k & Hs)%elem_of_slot_values.
    by apply parse_fastq_pairs_sound in Hs as [_ ?].
Qed.

Lemma pretty_Z_of_nat (n : nat) : pretty (Z.of_nat n) = pretty n.
Proof. by destruct n. Qed.

(** X4.  In the table [parse_fastq_pairs] returns every record is
    [{R1: path}] or [{R1: path, R2: path}].  The count of paired-end samples
    that [write_samplesheet] prints is at most the count of samples, so the
    count of single-end samples it prints is never negative, and the paths
    listed in the sheet number the samples plus the paired-end samples, which
    is at most the number of input files. *)
Theorem report_counts o fastq_files output_file :
  map_Forall (λ _ reads,
                ∃ f1, reads = {[ "R1" := f1 ]}
                      ∨ ∃ f2, reads = {[ "R1" := f1; "R2" := f2 ]})
             (parse_fastq_pairs o fastq_files)
  ∧ write_samplesheet_report (parse_fastq_pairs o fastq_files) output_file
    = [ "Samplesheet written to: " +:+ output_file;
        "Total samples: " +:+ pretty (size (parse_fastq_pairs o fastq_files));
        "Paired-end: " +:+ pretty (paired_count (parse_fastq_pairs o fastq_files));
        "Single-end: "
        +:+ pretty (size (parse_fastq_pairs o fastq_files)
                    - paired_count (parse_fastq_pairs o fastq_files)) ]
  ∧ paired_count (parse_fastq_pairs o fastq_files)
    ≤ size (parse_fastq_pairs o fastq_files)
  ∧ length (slot_values (parse_fastq_pairs o fastq_files))
    = size (parse_fastq_pairs o fastq_files)
      + paired_count (parse_fastq_pairs o fastq_files)
  ∧ size (parse_fastq_pairs o fastq_files)
    + paired_count (parse_fastq_pairs o fastq_files) ≤ length fastq_files.
Proof.
  split_and!.
  - intros n reads. apply parse_fastq_pairs_record.
  - unfold write_samplesheet_report.
    rewrite <-Nat2Z.inj_sub by apply paired_count_le. by rewrite pretty_Z_of_nat.
  - apply paired_count_le.
  - apply slot_values_count.
  - rewrite <-slot_values_count. apply slot_values_le.
Qed.

(** ** [main] *)

Lemma parse_fastq_pairs_nonempty o fastq_files f :
  f ∈ fastq_files → 1 ≤ size (parse_fastq_pairs o fastq_files).
Proof.
  intros Hf.
  destruct (rules_writes_complete o paired_patterns (list_to_set fastq_files) f)
    as (n & k & Hw); [by apply elem_of_list_to_set|].
  assert (is_Some (parse_fastq_pairs o fastq_files !! n)) as Hn.
  { rewrite parse_fastq_pairs_writes. apply writes_is_Some. right. by exists k, f. }
  assert (size (parse_fastq_pairs o fastq_files) ≠ 0); [|lia].
  by apply (map_size_ne_0_lookup_2 _ n).
Qed.

Lemma write_samplesheet_length samples strandedness s3_prefix :
  length (write_samplesheet samples strandedness s3_prefix) = S (size samples).
Proof.
  unfold write_samplesheet. simpl.
  by rewrite length_map, sorted_items_Permutation, length_map_to_list.
Qed.

(** X5.  [main] writes no samplesheet, and prints the error line, exactly
    when no file of the walk has a fastq extension and is accepted by the
    pattern. *)
Theorem main_no_fastq_files o walk args :
  main o walk args
  = (["Scanning directory: " +:+ arg_input_dir args; "ERROR: No FASTQ files found!"],
     None)
  ↔ ∀ root dirs files file,
      (root, dirs, files) ∈ walk → file ∈ files →
      has_fastq_extension file && pattern_accepts (arg_pattern args) file = false.
Proof.
  unfold main.
  destruct (find_fastq_files walk (arg_pattern args)) as [|p fs] eqn:Hfs; split.
  - intros _ root dirs files file Hentry Hfile.
    destruct (has_fastq_extension file && pattern_accepts (arg_pattern args) file)
      eqn:Hok; [|done].
    apply andb_true_iff in Hok as [Hext Hpat].
    assert (path_join root file ∈ find_fastq_files walk (arg_pattern args)) as Hin.
    { apply elem_of_find_fastq_files. by exists root, dirs, files, file. }
    rewrite Hfs in Hin. by apply elem_of_nil in Hin.
  - done.
  - intros [= _ ?].
  - intros Hnone.
    assert (p ∈ find_fastq_files walk (arg_pattern args)) as Hin
      by (rewrite Hfs; by left).
    apply elem_of_find_fastq_files
      in Hin as (root & dirs & files & file & Hentry & Hfile & Hext & Hpat & _).
    specialize (Hnone root dirs files file Hentry Hfile).
    by rewrite Hext, Hpat in Hnone.
Qed.

(** X6.  When [find_fastq_files] finds a file, [main] writes the header and
    then at least one row and at most one row for each file found: one row
    for each sample of the table. *)
Theorem main_rows o walk args p :
  p ∈ find_fastq_files walk (arg_pattern args) →
  ∃ rows,
    (main o walk args).2
    = Some (("sample,fastq_1,fastq_2,strandedness" +:+ String newline "") :: rows)
    ∧ length rows
      = size (parse_fastq_pairs o (find_fastq_files walk (arg_pattern args)))
    ∧ 1 ≤ length rows
    ∧ length rows ≤ length (find_fastq_files walk (arg_pattern args)).
Proof.
  intros Hp. unfold main.
  destruct (find_fastq_files walk (arg_pattern args)) as [|q fs] eqn:Hfs;
    [by apply elem_of_nil in Hp|].
  simpl. eexists. split; [reflexivity|].
  rewrite length_map, sorted_items_Permutation, length_map_to_list.
  split_and!; [done|by eapply parse_fastq_pairs_nonempty|].
  pose proof (slot_values_count o (q :: fs)) as Hcount.
  pose proof (slot_values_le o (q :: fs)) as Hle. simpl in Hle. lia.
Qed.

Lemma main_rows_witness :
  ∃ rows,
    (main elements_order [("data", [], ["A_1.fq"; "A_2.fq"; "C.fq"; "x.txt"])]
       {| arg_input_dir := "data"; arg_output := "samplesheet.csv";
          arg_strandedness := "auto"; arg_pattern := None;
          arg_s3_bucket := None; arg_local_prefix := None |}).2
    = Some (("sample,fastq_1,fastq_2,strandedness" +:+ String newline "") :: rows)
    ∧ length rows
      = size (parse_fastq_pairs elements_order
                (find_fastq_files [("data", [], ["A_1.fq"; "A_2.fq"; "C.fq"; "x.txt"])]
                   None))
    ∧ 1 ≤ length rows
    ∧ length rows
      ≤ length (find_fastq_files [("data", [], ["A_1.fq"; "A_2.fq"; "C.fq"; "x.txt"])]
                  None).
Proof.
  apply (main_rows elements_order [("data", [], ["A_1.fq"; "A_2.fq"; "C.fq"; "x.txt"])]
           {| arg_input_dir := "data"; arg_output := "samplesheet.csv";
              arg_strandedness := "auto"; arg_pattern := None;
              arg_s3_bucket := None; arg_local_prefix := None |}
           "data/A_1.fq").
  vm_compute. by left.
Defined.

(** ** The rows are not quoted *)

Lemma count_char_append c s t :
  count_char c (s +:+ t) = count_char c s + count_char c t.
Proof.
  induction s as [|a s IH]; [done|]. rewrite append_cons. simpl. rewrite IH. lia.
Qed.

(** X7.  A row is its four fields joined by three commas and closed by a
    line feed, nothing being quoted or escaped: a comma or a line feed in
    the sample name, in a path or in the strandedness is written as it is,
    so the row has three commas and one line feed more than its fields. *)
Theorem row_not_quoted strandedness s3_prefix item :
  count_char "," (row strandedness s3_prefix item)
  = 3 + count_char "," item.1
    + count_char "," (row_fields s3_prefix item.2).1
    + count_char "," (row_fields s3_prefix item.2).2
    + count_char "," strandedness
  ∧ count_char newline (row strandedness s3_prefix item)
    = 1 + count_char newline item.1
      + count_char newline (row_fields s3_prefix item.2).1
      + count_char newline (row_fields s3_prefix item.2).2
      + count_char newline strandedness.
Proof.
  unfold row. rewrite !count_char_append. simpl. lia.
Qed.


(** ** [generate_fastq_read] and [generate_sample] *)

Lemma choices_length population k draws pos :
  String.length (choices population k draws pos) = k.
Proof. revert pos. induction k as [|k IH]; intros pos; simpl; [done|]. by rewrite IH. Qed.

Lemma get_elem_of i s :
  i < String.length s → ∃ c, String.get i s = Some c ∧ c ∈ list_ascii_of_string s.
Proof.
  revert i. induction s as [|a s IH]; intros i; simpl; [lia|].
  destruct i as [|i]; intros Hi.
  - exists a. split; [done|by left].
  - destruct (IH i) as (c & Hc & Hin); [lia|]. exists c. split; [done|by right].
Qed.

Lemma pick_elem_of population draw :
  population ≠ "" → pick population draw ∈ list_ascii_of_string population.
Proof.
  intros Hne. unfold pick.
  destruct (get_elem_of (draw mod String.length population) population)
    as (c & -> & Hc); [|done].
  apply Nat.mod_upper_bound. by destruct population.
Qed.

Lemma choices_alphabet population k draws pos :
  population ≠ "" →
  Forall (λ c, c ∈ list_ascii_of_string population)
         (list_ascii_of_string (choices population k draws pos)).
Proof.
  intros Hne. revert pos. induction k as [|k IH]; intros pos; simpl; [done|].
  constructor; [by apply pick_elem_of|apply IH].
Qed.

(** X8.  A record of [generate_fastq_read] is the four lines
    [@name.num num/mate], sequence, [+] and quality; sequence and quality
    have the same length, [read_length] or nothing when it is negative; the
    sequence is made of [A], [C], [G], [T] and the quality of [F], [G],
    [H], [I]; the generator moves on by the characters drawn. *)
Theorem generate_fastq_read_record sample_name read_num read_length mate draws pos :
  ∃ sequence quality,
    generate_fastq_read sample_name read_num read_length mate draws pos
    = ("@" +:+ sample_name +:+ "." +:+ pretty read_num +:+ " " +:+ pretty read_num
       +:+ "/" +:+ pretty mate +:+ String newline "" +:+ sequence +:+ String newline ""
       +:+ "+" +:+ String newline "" +:+ quality +:+ String newline "",
       pos + 2 * Z.to_nat read_length)
    ∧ String.length sequence = Z.to_nat read_length
    ∧ String.length quality = Z.to_nat read_length
    ∧ Forall (λ c, c ∈ list_ascii_of_string "ACGT") (list_ascii_of_string sequence)
    ∧ Forall (λ c, c ∈ list_ascii_of_string "FGHI") (list_ascii_of_string quality).
Proof.
  exists (choices "ACGT" (Z.to_nat read_length) draws pos),
         (choices "IIIIIIIIIIHHHHHGGGGGFFFFF" (Z.to_nat read_length) draws
                  (pos + Z.to_nat read_length)).
  split_and!.
  - unfold generate_fastq_read. rewrite !append_assoc. f_equal. lia.
  - apply choices_length.
  - apply choices_length.
  - by apply choices_alphabet.
  - eapply Forall_impl; [by apply choices_alphabet|].
    intros c Hc. simpl in Hc.
    repeat (apply elem_of_cons in Hc as [->|Hc]; [simpl; set_solver|]).
    by apply elem_of_nil in Hc.
Qed.

Lemma generate_fastq_read_pos sample_name read_num read_length mate draws pos :
  (generate_fastq_read sample_name read_num read_length mate draws pos).2
  = pos + 2 * Z.to_nat read_length.
Proof. unfold generate_fastq_read. cbn [snd]. lia. Qed.

Lemma write_reads_length sample_name read_length mate first count draws pos :
  length (write_reads sample_name read_length mate first count draws pos).1 = count.
Proof.
  revert first pos. induction count as [|count IH]; intros first pos; simpl; [done|].
  by rewrite IH.
Qed.

Lemma write_reads_pos sample_name read_length mate first count draws pos :
  (write_reads sample_name read_length mate first count draws pos).2
  = pos + 2 * count * Z.to_nat read_length.
Proof.
  revert first pos. induction count as [|count IH]; intros first pos; simpl; [lia|].
  rewrite IH. lia.
Qed.

Lemma write_reads_lookup sample_name read_length mate first count draws pos i :
  i < count →
  (write_reads sample_name read_length mate first count draws pos).1 !! i
  = Some (generate_fastq_read sample_name (first + Z.of_nat i) read_length mate draws
            (pos + 2 * i * Z.to_nat read_length)).1.
Proof.
  revert first pos i. induction count as [|count IH]; intros first pos i Hi; [lia|].
  cbn [write_reads fst snd]. destruct i as [|i].
  - replace (first + Z.of_nat 0)%Z with first by lia.
    by replace (pos + 2 * 0 * Z.to_nat read_length) with pos by lia.
  - change ((?x :: ?l) !! S i) with (l !! i).
    rewrite IH, generate_fastq_read_pos by lia.
    replace (first + 1 + Z.of_nat i)%Z with (first + Z.of_nat (S i))%Z by lia.
    by replace (pos + 2 * Z.to_nat read_length + 2 * i * Z.to_nat read_length)
      with (pos + 2 * S i * Z.to_nat read_length) by lia.
Qed.

(** X9.  [generate_sample] writes [name_1.fastq.gz] and [name_2.fastq.gz],
    [num_reads] records to each, none when [num_reads] is not positive, and
    leaves the generator [4 * num_reads * read_length] draws further; the
    records of the two files go by pairs: the record at a given place has the
    same read number, counted from one, in both files, with the mate 1 in
    the first file and 2 in the second, and no random character is used
    twice. *)
Theorem generate_sample_mates sample_name num_reads read_length draws pos :
  (generate_sample sample_name num_reads read_length draws pos).1.1.1
  = sample_name +:+ "_1.fastq.gz"
  ∧ (generate_sample sample_name num_reads read_length draws pos).1.2.1
    = sample_name +:+ "_2.fastq.gz"
  ∧ length (generate_sample sample_name num_reads read_length draws pos).1.1.2
    = Z.to_nat num_reads
  ∧ length (generate_sample sample_name num_reads read_length draws pos).1.2.2
    = Z.to_nat num_reads
  ∧ (generate_sample sample_name num_reads read_length draws pos).2
    = pos + 4 * Z.to_nat num_reads * Z.to_nat read_length
  ∧ (∀ i, i < Z.to_nat num_reads →
       (generate_sample sample_name num_reads read_length draws pos).1.1.2 !! i
       = Some (generate_fastq_read sample_name (Z.of_nat i + 1) read_length 1 draws
                 (pos + 2 * i * Z.to_nat read_length)).1
       ∧ (generate_sample sample_name num_reads read_length draws pos).1.2.2 !! i
         = Some (generate_fastq_read sample_name (Z.of_nat i + 1) read_length 2 draws
                   (pos + 2 * (Z.to_nat num_reads + i) * Z.to_nat read_length)).1).
Proof.
  unfold generate_sample. cbn [fst snd].
  rewrite !write_reads_length, !write_reads_pos.
  split_and!; [done..|lia|]. intros i Hi.
  rewrite !write_reads_lookup by done.
  replace (1 + Z.of_nat i)%Z with (Z.of_nat i + 1)%Z by lia.
  by replace (pos + 2 * Z.to_nat num_reads * Z.to_nat read_length
              + 2 * i * Z.to_nat read_length)
    with (pos + 2 * (Z.to_nat num_reads + i) * Z.to_nat read_length) by lia.
Qed.

Lemma generate_sample_mates_witness :
  (generate_sample "S" 2 3 (λ n, n) 0).1.1.2 !! 1
  = Some (generate_fastq_read "S" (Z.of_nat 1 + 1) 3 1 (λ n, n) (0 + 2 * 1 * Z.to_nat 3)).1
  ∧ (generate_sample "S" 2 3 (λ n, n) 0).1.2.2 !! 1
    = Some (generate_fastq_read "S" (Z.of_nat 1 + 1) 3 2 (λ n, n)
              (0 + 2 * (Z.to_nat 2 + 1) * Z.to_nat 3)).1.
Proof.
  apply (generate_sample_mates "S" 2 3 (λ n, n) 0). vm_compute. lia.
Defined.


(** ** The two scripts on the test data *)

(** The stem of a basename: a non-empty text without line feed, followed by
    an ending that the pattern accepts and that holds no shorter ending. *)
Lemma re_match_group1_stem items g t r :
  g ≠ "" → count_char newline g = 0 →
  match_items items t = Some r → re_match_group1 items t = None →
  re_match_group1 items (g +:+ t) = Some g.
Proof.
  intros Hne Hnl Hm Hnone. induction g as [|c g IH]; [done|].
  rewrite append_cons. cbn [re_match_group1 count_char] in *.
  destruct (Ascii.eqb c newline); [lia|].
  destruct g as [|c' g].
  - by rewrite append_nil_l, Hnone, Hm.
  - by rewrite IH.
Qed.

Lemma test_basename s t :
  count_char slash s = 0 → count_char slash t = 0 →
  basename ("test_data/fastq/" +:+ s +:+ t) = s +:+ t.
Proof.
  intros Hs Ht. unfold basename.
  change ("test_data/fastq/" +:+ s +:+ t) with ("test_data/fastq" +:+ "/" +:+ (s +:+ t)).
  apply after_last_slash_append. rewrite count_char_append. lia.
Qed.

Lemma test_mate1 s :
  plain_name s →
  re_match_group1 rule_1_2.1 (basename ("test_data/fastq/" +:+ s +:+ "_1.fastq.gz"))
  = Some s.
Proof.
  intros (Hne & Hnl & Hsl). rewrite test_basename by done.
  by apply (re_match_group1_stem _ _ _ "").
Qed.

Lemma test_mate2 s :
  plain_name s →
  re_match_group1 rule_1_2.2 (basename ("test_data/fastq/" +:+ s +:+ "_2.fastq.gz"))
  = Some s.
Proof.
  intros (Hne & Hnl & Hsl). rewrite test_basename by done.
  by apply (re_match_group1_stem _ _ _ "").
Qed.

Lemma elem_of_test_data_files samples f :
  f ∈ test_data_files samples ↔
  ∃ s, s ∈ samples ∧ (f = "test_data/fastq/" +:+ s +:+ "_1.fastq.gz"
                      ∨ f = "test_data/fastq/" +:+ s +:+ "_2.fastq.gz").
Proof.
  unfold test_data_files. rewrite list_elem_of_bind. split.
  - intros (s & Hf & Hs). exists s. split; [done|].
    apply elem_of_cons in Hf as [->|Hf]; [by left|].
    apply list_elem_of_singleton in Hf as ->. by right.
  - intros (s & Hs & [->| ->]); exists s; (split; [|done]); [by left|right; by left].
Qed.

(** Two files of the working set that a rule pairs under a stem: the run
    assigns the mate-1 file, and a mate-2 file of that stem, to the record of
    the stem. *)
Lemma rules_writes_binding o rules rem r n f1 f2 :
  rules_exclusive rules = true → r ∈ rules → f1 ∈ rem → f2 ∈ rem →
  re_match_group1 r.1 (basename f1) = Some n →
  re_match_group1 r.2 (basename f2) = Some n →
  ∃ f2', f2' ∈ rem ∧ re_match_group1 r.2 (basename f2') = Some n
    ∧ (n, "R1", f1) ∈ rules_writes o rules rem
    ∧ (n, "R2", f2') ∈ rules_writes o rules rem.
Proof.
  revert rem. induction rules as [|r0 rules IH]; intros rem; simpl.
  - intros _ Hr. by apply elem_of_nil in Hr.
  - rewrite !andb_true_iff. intros [[_ Hall] Hex] Hr Hf1 Hf2 Hm1 Hm2.
    apply elem_of_cons in Hr as [->|Hr].
    + destruct (find_mate2_is_Some r0.2 n (set_iter o rem) f2) as [f2' Hf];
        [by apply elem_of_set_iter|done|].
      pose proof (find_mate2_Some _ _ _ _ Hf) as [Hin2 Hm2'].
      assert ((n, f1, f2') ∈ pass_bindings r0 (set_iter o rem) (set_iter o rem)) as Hb.
      { apply elem_of_pass_bindings. split_and!; [by apply elem_of_set_iter|done..]. }
      exists f2'. split_and!; [by apply elem_of_set_iter in Hin2|done|..];
        apply elem_of_app; left; apply elem_of_binding_writes; exists f1, f2'; auto.
    + rewrite forallb_forall in Hall.
      pose proof (Hall r (proj1 (list_elem_of_In _ _) Hr)) as Hap.
      destruct (IH (rem ∖ bound_files
                      (pass_bindings r0 (set_iter o rem) (set_iter o rem))))
        as (f2' & Hin & Hm & Hw1 & Hw2); [done..| | |done|done|].
      * apply elem_of_difference. split; [done|].
        eapply rule_apart_unbound; eauto.
      * apply elem_of_difference. split; [done|].
        eapply rule_apart_unbound; eauto.
      * exists f2'. split_and!; [set_solver|done|..]; apply elem_of_app; by right.
Qed.

Lemma rule_1_2_paired : rule_1_2 ∈ paired_patterns.
Proof. right. by left. Qed.

(** The run assigns the two files of a sample to its record. *)
Lemma test_writes_elem_of o samples s :
  Forall plain_name samples → s ∈ samples →
  (s, "R1", "test_data/fastq/" +:+ s +:+ "_1.fastq.gz")
    ∈ parse_writes o (test_data_files samples)
  ∧ (s, "R2", "test_data/fastq/" +:+ s +:+ "_2.fastq.gz")
    ∈ parse_writes o (test_data_files samples).
Proof.
  intros Hplain Hs. rewrite Forall_forall in Hplain.
  destruct (rules_writes_binding o paired_patterns
              (list_to_set (test_data_files samples)) rule_1_2 s
              ("test_data/fastq/" +:+ s +:+ "_1.fastq.gz")
              ("test_data/fastq/" +:+ s +:+ "_2.fastq.gz"))
    as (f2' & Hin & Hm & Hw1 & Hw2).
  - apply paired_patterns_exclusive.
  - apply rule_1_2_paired.
  - apply elem_of_list_to_set, elem_of_test_data_files. exists s. auto.
  - apply elem_of_list_to_set, elem_of_test_data_files. exists s. auto.
  - by apply test_mate1, Hplain.
  - by apply test_mate2, Hplain.
  - split; [done|].
    apply elem_of_list_to_set, elem_of_test_data_files in Hin as (s' & Hs' & [->| ->]).
    + destruct (apart_no_double_match _ _ _ _ _
                  (paired_patterns_apart _ rule_1_2_paired)
                  (test_mate1 s' (Hplain s' Hs')) Hm).
    + rewrite test_mate2 in Hm by (by apply Hplain). by injection Hm as ->.
Qed.

(** It assigns nothing else. *)
Lemma test_writes_inv o samples n k f :
  Forall plain_name samples →
  (n, k, f) ∈ parse_writes o (test_data_files samples) →
  n ∈ samples
  ∧ (k = "R1" ∧ f = "test_data/fastq/" +:+ n +:+ "_1.fastq.gz"
     ∨ k = "R2" ∧ f = "test_data/fastq/" +:+ n +:+ "_2.fastq.gz").
Proof.
  intros Hplain Hw.
  pose proof (rules_writes_functional o paired_patterns
                (list_to_set (test_data_files samples)) paired_patterns_exclusive)
    as Hfun.
  pose proof (rules_writes_files _ _ _ _ _ _ Hw) as Hf.
  apply elem_of_list_to_set, elem_of_test_data_files in Hf as (s & Hs & [->| ->]);
    destruct (test_writes_elem_of o samples s Hplain Hs) as [Hw1 Hw2].
  - destruct (Hfun _ _ _ _ _ Hw Hw1) as [-> ->]. auto.
  - destruct (Hfun _ _ _ _ _ Hw Hw2) as [-> ->]. auto.
Qed.

Lemma test_table_slot o samples s k :
  Forall plain_name samples → s ∈ samples →
  slot (parse_fastq_pairs o (test_data_files samples)) s k = (test_record s).2 !! k.
Proof.
  intros Hplain Hs. destruct (test_writes_elem_of o samples s Hplain Hs) as [Hw1 Hw2].
  rewrite parse_fastq_pairs_writes. unfold test_record. simpl.
  destruct (decide (k = "R1")) as [->|H1]; [|destruct (decide (k = "R2")) as [->|H2]].
  - rewrite lookup_insert_eq. apply slot_writes_only; [by right|].
    intros g Hg.
    by apply (test_writes_inv o samples _ _ _ Hplain) in Hg as [_ [[_ ->]|[? _]]].
  - rewrite lookup_insert_ne, lookup_singleton_eq by done.
    apply slot_writes_only; [by right|].
    intros g Hg.
    by apply (test_writes_inv o samples _ _ _ Hplain) in Hg as [_ [[? _]|[_ ->]]].
  - rewrite lookup_insert_ne, lookup_singleton_ne by done.
    rewrite slot_writes_untouched; [apply slot_empty|].
    intros g Hg.
    by apply (test_writes_inv o samples _ _ _ Hplain) in Hg as [_ [[? _]|[? _]]].
Qed.

Lemma test_table_lookup o samples s :
  Forall plain_name samples →
  parse_fastq_pairs o (test_data_files samples) !! s
  = if decide (s ∈ samples) then Some (test_record s).2 else None.
Proof.
  intros Hplain. case_decide as Hs.
  - destruct (test_writes_elem_of o samples s Hplain Hs) as [Hw1 _].
    assert (is_Some (parse_fastq_pairs o (test_data_files samples) !! s))
      as [reads Hreads].
    { rewrite parse_fastq_pairs_writes. apply writes_is_Some. right. eauto. }
    rewrite Hreads. f_equal. apply map_eq. intros k.
    by rewrite <-(slot_lookup _ _ _ k Hreads), test_table_slot.
  - apply eq_None_not_Some. rewrite parse_fastq_pairs_writes, writes_is_Some.
    intros [[? Hempty]|(k & f & Hw)]; [by rewrite lookup_empty in Hempty|].
    by apply (test_writes_inv o samples _ _ _ Hplain) in Hw as [? _].
Qed.

Lemma test_record_names samples : (test_record <$> samples).*1 = samples.
Proof. induction samples as [|s l IH]; [done|]. csimpl. by rewrite IH. Qed.

Lemma test_table o samples :
  NoDup samples → Forall plain_name samples →
  parse_fastq_pairs o (test_data_files samples)
  = list_to_map (test_record <$> samples).
Proof.
  intros Hnd Hplain. apply map_eq. intros s. rewrite test_table_lookup by done.
  case_decide as Hs; symmetry.
  - apply elem_of_list_to_map_1; [by rewrite test_record_names|].
    apply list_elem_of_fmap. by exists s.
  - apply not_elem_of_list_to_map_1. by rewrite test_record_names.
Qed.

Lemma test_sorted_items o samples :
  NoDup samples → Forall plain_name samples →
  sorted_items (parse_fastq_pairs o (test_data_files samples))
  = test_record <$> merge_sort String.le samples.
Proof.
  intros Hnd Hplain. apply (StronglySorted_unique_strong item_le).
  - intros x1 x2 Hx1 (s2 & -> & _)%list_elem_of_fmap Hle1 Hle2.
    rewrite sorted_items_Permutation, test_table, map_to_list_to_map in Hx1
      by (by rewrite ?test_record_names).
    apply list_elem_of_fmap in Hx1 as (s1 & -> & _).
    unfold item_le in *. simpl in *. f_equal. by apply (anti_symm String.le).
  - apply StronglySorted_merge_sort; apply _.
  - apply (StronglySorted_fmap _ String.le); [done|].
    apply StronglySorted_merge_sort; apply _.
  - by rewrite sorted_items_Permutation, test_table, map_to_list_to_map,
      merge_sort_Permutation by (by rewrite ?test_record_names).
Qed.

(** X10.  On the files of the test data, for sample names that are distinct,
    not empty and free of line feed and slash, [write_samplesheet] applied
    to the table of [parse_fastq_pairs], with the strandedness [auto] and no
    S3 prefix, writes the samplesheet that [create_samplesheet] writes for
    the samples in increasing order of name: every sample is resolved as a
    pair by the [_1/_2] rule, under its own name. *)
Theorem samplesheet_of_test_data o samples :
  NoDup samples → Forall plain_name samples →
  write_samplesheet (parse_fastq_pairs o (test_data_files samples)) "auto" None
  = create_samplesheet (merge_sort String.le samples).
Proof.
  intros Hnd Hplain. unfold write_samplesheet, create_samplesheet.
  rewrite test_sorted_items by done. f_equal.
  induction (merge_sort String.le samples) as [|s l IH]; [done|].
  csimpl. by rewrite IH.
Qed.

Lemma samplesheet_of_test_data_witness :
  write_samplesheet
    (parse_fastq_pairs reverse_order (test_data_files ["SRR6357071"; "SRR6357070"]))
    "auto" None
  = create_samplesheet (merge_sort String.le ["SRR6357071"; "SRR6357070"]).
Proof.
  apply (samplesheet_of_test_data reverse_order ["SRR6357071"; "SRR6357070"]).
  - apply (bool_decide_unpack (NoDup _)). vm_compute. exact I.
  - repeat apply Forall_cons_2; [..|apply Forall_nil_2];
      (split_and!; [discriminate|reflexivity..]).
Defined.


(** ** The record of a pair *)

Lemma competes_true n g :
  competes n g = true ↔
  (∃ r, r ∈ paired_patterns
        ∧ (re_match_group1 r.1 (basename g) = Some n
           ∨ re_match_group1 r.2 (basename g) = Some n))
  ∨ re_sub_fastq_ext (basename g) = n.
Proof.
  unfold competes. rewrite orb_true_iff, existsb_exists, bool_decide_eq_true.
  apply or_iff_compat_r. split; intros (r & Hr & Hm); exists r.
  - apply list_elem_of_In in Hr. split; [done|].
    by rewrite orb_true_iff, !bool_decide_eq_true in Hm.
  - apply list_elem_of_In in Hr. split; [done|].
    by rewrite orb_true_iff, !bool_decide_eq_true.
Qed.

(** Only a file that competes for a record is assigned to it. *)
Lemma rules_writes_competes o rules rem n k g :
  (∀ r, r ∈ rules → r ∈ paired_patterns) →
  (n, k, g) ∈ rules_writes o rules rem → competes n g = true.
Proof.
  rewrite competes_true. revert rem.
  induction rules as [|r rules IH]; intros rem Hsub; simpl.
  - intros (x & Heq & _)%list_elem_of_fmap. unfold single_write in Heq.
    simplify_eq. by right.
  - intros [Hw|Hw]%elem_of_app;
      [|by apply (IH (rem ∖ bound_files
                        (pass_bindings r (set_iter o rem) (set_iter o rem))));
          [intros r' Hr'; apply Hsub; by right|]].
    apply elem_of_binding_writes in Hw as (g1 & g2 & Hb & Hk).
    apply elem_of_pass_bindings in Hb as (_ & Hm1 & [_ Hm2]%find_mate2_Some).
    left. exists r. split; [apply Hsub; by left|].
    destruct Hk as [[_ ->]|[_ ->]]; auto.
Qed.

(** X11.  Two input files whose basenames match the mate-1 and the mate-2
    pattern of a rule with the same stem, no other input file competing for
    the record of that stem, make the record of the stem: the first file is
    its [mate1] and the second its [mate2], whatever the iteration order. *)
Theorem paired_files_record o fastq_files r n f1 f2 :
  r ∈ paired_patterns → f1 ∈ fastq_files → f2 ∈ fastq_files →
  re_match_group1 r.1 (basename f1) = Some n →
  re_match_group1 r.2 (basename f2) = Some n →
  (∀ g, g ∈ fastq_files → competes n g = true → g = f1 ∨ g = f2) →
  parse_fastq_pairs o fastq_files !! n = Some {[ "R1" := f1; "R2" := f2 ]}.
Proof.
  intros Hr Hf1 Hf2 Hm1 Hm2 Honly.
  pose proof (paired_patterns_apart r Hr) as Hap.
  pose proof (rules_writes_functional o paired_patterns (list_to_set fastq_files)
                paired_patterns_exclusive) as Hfun.
  destruct (rules_writes_binding o paired_patterns (list_to_set fastq_files) r n f1 f2)
    as (f2' & Hin & Hm & Hw1 & Hw2);
    [apply paired_patterns_exclusive|done|by apply elem_of_list_to_set..|done|done|].
  assert (f2' = f2) as ->.
  { destruct (Honly f2') as [->| ->]; [by apply elem_of_list_to_set in Hin| | |done].
    - by apply (rules_writes_competes o paired_patterns
                  (list_to_set fastq_files) n "R2").
    - destruct (apart_no_double_match _ _ _ _ _ Hap Hm1 Hm). }
  assert (∀ k g, (n, k, g) ∈ parse_writes o fastq_files →
                 k = "R1" ∧ g = f1 ∨ k = "R2" ∧ g = f2) as Hinv.
  { intros k g Hw. destruct (Honly g) as [->| ->].
    - apply rules_writes_files in Hw. by apply elem_of_list_to_set in Hw.
    - by apply (rules_writes_competes o paired_patterns
                  (list_to_set fastq_files) n k).
    - destruct (Hfun _ _ _ _ _ Hw Hw1) as [_ ->]. auto.
    - destruct (Hfun _ _ _ _ _ Hw Hw2) as [_ ->]. auto. }
  assert (slot (parse_fastq_pairs o fastq_files) n "R1" = Some f1) as Hs1.
  { rewrite parse_fastq_pairs_writes. apply slot_writes_only; [by right|].
    by intros g [[_ ->]|[? _]]%Hinv. }
  assert (slot (parse_fastq_pairs o fastq_files) n "R2" = Some f2) as Hs2.
  { rewrite parse_fastq_pairs_writes. apply slot_writes_only; [by right|].
    by intros g [[? _]|[_ ->]]%Hinv. }
  destruct (parse_fastq_pairs o fastq_files !! n) as [reads|] eqn:Hreads;
    [|by unfold slot in Hs1; rewrite Hreads in Hs1].
  rewrite (slot_lookup _ _ _ "R1" Hreads) in Hs1.
  rewrite (slot_lookup _ _ _ "R2" Hreads) in Hs2.
  destruct (parse_fastq_pairs_record o fastq_files n reads Hreads)
    as [a [->|[b ->]]].
  - by rewrite lookup_singleton_ne in Hs2.
  - rewrite lookup_insert_eq in Hs1.
    rewrite lookup_insert_ne, lookup_singleton_eq in Hs2 by done. congruence.
Qed.

Lemma paired_files_record_witness :
  parse_fastq_pairs reverse_order ["x/A_R1.fq"; "x/A_R2.fq"; "x/B.fq"] !! "A"
  = Some {[ "R1" := "x/A_R1.fq"; "R2" := "x/A_R2.fq" ]}.
Proof.
  apply (paired_files_record reverse_order ["x/A_R1.fq"; "x/A_R2.fq"; "x/B.fq"]
           rule_R1_R2).
  - by left.
  - by left.
  - right. by left.
  - reflexivity.
  - reflexivity.
  - intros g Hg Hc.
    repeat (apply elem_of_cons in Hg as [->|Hg];
            [first [by left|by right|vm_compute in Hc; discriminate Hc]|]).
    by apply elem_of_nil in Hg.
Defined.


(** ** The S3 prefix of [main] *)

Lemma truthy_Some s : truthy s = true → ∃ t, s = Some t ∧ t ≠ "".
Proof.
  destruct s as [t|]; [|done]. simpl. intros Ht%negb_true_iff.
  exists t. split; [done|]. intros ->. by rewrite String.eqb_refl in Ht.
Qed.

(** X12.  [main] converts the paths only when [--s3_bucket] and
    [--local_prefix] are both given and not empty.  The prefix replaced is
    then never the empty string, so the bucket is never put between the
    characters of a path, and the two path fields of a row are the two paths
    with the occurrences of the local prefix replaced from the left, an
    absent path staying empty. *)
Theorem main_s3_conversion args p reads :
  main_s3_prefix args = Some p →
  arg_local_prefix args = Some (local p) ∧ arg_s3_bucket args = Some (s3 p)
  ∧ local p ≠ "" ∧ s3 p ≠ ""
  ∧ row_fields (main_s3_prefix args) reads
    = (replace_go (local p) (s3 p) 0 (default "" (reads !! "R1")),
       replace_go (local p) (s3 p) 0 (default "" (reads !! "R2"))).
Proof.
  intros Hp. rewrite Hp. unfold main_s3_prefix in Hp.
  destruct (truthy (arg_s3_bucket args)) eqn:Hb; [|done].
  destruct (truthy (arg_local_prefix args)) eqn:Hl; [|done].
  apply truthy_Some in Hb as (b & Hb & Hbne), Hl as (l & Hl & Hlne).
  rewrite Hb, Hl in Hp. simpl in Hp. injection Hp as <-. simpl.
  split_and!; [done..|]. unfold row_fields. simpl.
  rewrite !str_replace_nonempty by done.
  case_bool_decide as Hr2; [|done]. by rewrite Hr2.
Qed.

Lemma main_s3_conversion_witness :
  row_fields
    (main_s3_prefix
       {| arg_input_dir := "/data/fq"; arg_output := "samplesheet.csv";
          arg_strandedness := "reverse"; arg_pattern := None;
          arg_s3_bucket := Some "s3://bkt/fq"; arg_local_prefix := Some "/data/fq" |})
    {[ "R1" := "/data/fq/C.fq" ]}
  = (replace_go "/data/fq" "s3://bkt/fq" 0
       (default "" (({[ "R1" := "/data/fq/C.fq" ]} : gmap string string) !! "R1")),
     replace_go "/data/fq" "s3://bkt/fq" 0
       (default "" (({[ "R1" := "/data/fq/C.fq" ]} : gmap string string) !! "R2"))).
Proof.
  apply (main_s3_conversion
           {| arg_input_dir := "/data/fq"; arg_output := "samplesheet.csv";
              arg_strandedness := "reverse"; arg_pattern := None;
              arg_s3_bucket := Some "s3://bkt/fq"; arg_local_prefix := Some "/data/fq" |}
           {| local := "/data/fq"; s3 := "s3://bkt/fq" |}
           {[ "R1" := "/data/fq/C.fq" ]}).
  reflexivity.
Defined.


Example basename_dir : basename "data/run1/A_R1.fq" = "A_R1.fq".
Proof. reflexivity. Qed.

Example rule1_stem :
  re_match_group1 rule_R1_R2.1 "A_R1_001.fastq.gz" = Some "A".
Proof. reflexivity. Qed.

Example rule1_greedy :
  re_match_group1 rule_R1_R2.1 "A_R1.fq_R1.fq" = Some "A_R1.fq".
Proof. reflexivity. Qed.

Example sub_ext : re_sub_fastq_ext "D_R1.fastq.gz" = "D_R1".
Proof. reflexivity. Qed.

Example scenario1 :
  parse_fastq_pairs elements_order ["A_R1_001.fastq.gz"; "A_R2_001.fastq.gz"]
  = {[ "A" := {[ "R1" := "A_R1_001.fastq.gz"; "R2" := "A_R2_001.fastq.gz" ]} ]}.
Proof. vm_compute. reflexivity. Qed.

